(** * Swiss Register: the in-memory search index

    A shallow embedding of [buildIndex] and [queryIndex] from
    [swiss_register_remote_data_version_react_single_file.jsx], and the
    properties of the tokenizer, of the inverted index and of query
    resolution.

    Strings are sequences of 8-bit code units, read as the code points
    U+0000..U+00FF (the Basic Latin and Latin-1 Supplement blocks).  On this
    block the Unicode classes used by the source ([\p{L}], [\p{N}], [\s], the
    characters removed by [trim]) and [toLowerCase] are given by finite
    tables, written out below; [toLowerCase] maps the block into itself.

    A JavaScript [Map] from tokens to [Set]s of row positions is a [gmap]
    from strings to lists of positions: a [Set] iterates in insertion order,
    and that order decides what [slice(0, 1000)] keeps, so a set is the list
    of its members in insertion order.

    The two places where the source could raise a [TypeError] (calling
    [add] on the result of [idx.get], spreading [current]) are kept as
    such, in a small error monad. *)

From Stdlib Require Import Ascii NArith.
From stdpp Require Import gmap strings list sorting pretty.

Local Open Scope N_scope.

(** ** Characters *)

Module Char.

Definition code (c : ascii) : N := N_of_ascii c.

Definition between (lo hi : N) (c : ascii) : bool :=
  (lo <=? code c) && (code c <=? hi).

(** [\p{L}] on U+0000..U+00FF: A-Z, a-z, the ordinal indicators, the micro
    sign, and the Latin-1 letters (all of U+00C0..U+00FF but the
    multiplication and division signs). *)
Definition is_letter (c : ascii) : bool :=
  between 0x41 0x5A c || between 0x61 0x7A c
  || (code c =? 0xAA) || (code c =? 0xB5) || (code c =? 0xBA)
  || between 0xC0 0xD6 c || between 0xD8 0xF6 c || between 0xF8 0xFF c.

(** [\p{N}] on U+0000..U+00FF: the digits, superscript one, two and three,
    and the three vulgar fractions. *)
Definition is_number (c : ascii) : bool :=
  between 0x30 0x39 c
  || (code c =? 0xB2) || (code c =? 0xB3) || (code c =? 0xB9)
  || between 0xBC 0xBE c.

(** A character matched by [[^\p{L}\p{N}]]. *)
Definition is_separator (c : ascii) : bool :=
  negb (is_letter c || is_number c).

(** [\s], which is also what [trim] removes: TAB, LF, VT, FF, CR, SPACE
    and NO-BREAK SPACE. *)
Definition is_space (c : ascii) : bool :=
  between 0x09 0x0D c || (code c =? 0x20) || (code c =? 0xA0).

(** The upper-case letters of the block and their lower-case forms, 32
    code points higher. *)
Definition is_upper (c : ascii) : bool :=
  between 0x41 0x5A c || between 0xC0 0xD6 c || between 0xD8 0xDE c.

Definition to_lower (c : ascii) : ascii :=
  if is_upper c then ascii_of_N (code c + 32) else c.

End Char.

Local Close Scope N_scope.

(** ** Strings *)

Module Str.

Fixpoint map (f : ascii → ascii) (s : string) : string :=
  match s with
  | EmptyString => EmptyString
  | String c s' => String (f c) (map f s')
  end.

Fixpoint forallb (p : ascii → bool) (s : string) : bool :=
  match s with
  | EmptyString => true
  | String c s' => p c && forallb p s'
  end.

(** [s.toLowerCase()] *)
Definition toLowerCase (s : string) : string := map Char.to_lower s.

(** The truth value of a string: [""] is falsy, every other string is
    truthy. *)
Definition truthy (s : string) : bool :=
  match s with
  | EmptyString => false
  | String _ _ => true
  end.

Fixpoint trimStart (s : string) : string :=
  match s with
  | EmptyString => EmptyString
  | String c s' => if Char.is_space c then trimStart s' else s
  end.

Fixpoint trimEnd (s : string) : string :=
  match s with
  | EmptyString => EmptyString
  | String c s' =>
      match trimEnd s' with
      | EmptyString => if Char.is_space c then EmptyString else String c EmptyString
      | String _ _ as t => String c t
      end
  end.

(** [s.trim()] *)
Definition trim (s : string) : string := trimEnd (trimStart s).

(** [s.split(/[sep]+/)] for a class [sep] of characters: the pieces of [s]
    between the maximal runs of [sep] characters.  A run at the start or
    at the end of [s] leaves an empty piece there, and the empty string
    splits into one empty piece.  [in_run] says that the character before
    [s] belonged to a run, which the next [sep] character then extends. *)
Fixpoint split_from (sep : ascii → bool) (in_run : bool) (s : string) : list string :=
  match s with
  | EmptyString => [EmptyString]
  | String c s' =>
      if sep c then
        if in_run then split_from sep true s'
        else EmptyString :: split_from sep true s'
      else
        match split_from sep false s' with
        | piece :: pieces => String c piece :: pieces
        | [] => [String c EmptyString]
        end
  end.

Definition split (sep : ascii → bool) (s : string) : list string :=
  split_from sep false s.

(** [pieces.join(glue)] *)
Fixpoint join (glue : string) (pieces : list string) : string :=
  match pieces with
  | [] => EmptyString
  | [p] => p
  | p :: ps => p +:+ glue +:+ join glue ps
  end.

End Str.

(** ** The tokenizer of the index builder *)

(** [v.split(/[^\p{L}\p{N}]+/u).filter(Boolean)] *)
Definition split_tokens (v : string) : list string :=
  filter (λ s, Str.truthy s = true) (Str.split Char.is_separator v).

(** Lower-casing, then splitting: what [buildIndex] does to a field value. *)
Definition tokenize (text : string) : list string :=
  split_tokens (Str.toLowerCase text).

(** ** Completions: a value, or a [TypeError] *)

Inductive result (A : Type) : Type :=
  | Ok (a : A)
  | TypeError.
Arguments Ok {A} a.
Arguments TypeError {A}.

#[global] Instance result_ret : MRet result := λ A a, Ok a.
#[global] Instance result_bind : MBind result := λ A B k m,
  match m with
  | Ok a => k a
  | TypeError => TypeError
  end.

(** [arr.forEach((x, i) => body)], where the body updates a state [St] the
    callback closes over, and may throw. *)
Fixpoint forEach_from {A St : Type} (body : St → A → nat → result St)
    (i : nat) (arr : list A) (s : St) : result St :=
  match arr with
  | [] => Ok s
  | x :: arr' => s' ← body s x i; forEach_from body (S i) arr' s'
  end.

Definition forEach {A St : Type} (body : St → A → nat → result St)
    (arr : list A) (s : St) : result St :=
  forEach_from body 0 arr s.

(** ** Sets of positions and the index *)

(** A [Set] of row positions: its members, in insertion order. *)
Module JsSet.

Abbreviation t := (list nat).

(** [new Set()] *)
Definition empty : t := [].

(** [set.has(x)] *)
Definition has (x : nat) (s : t) : bool := bool_decide (x ∈ s).

(** [set.add(x)]: a member keeps its place, a new one goes last. *)
Definition add (x : nat) (s : t) : t := if has x s then s else s ++ [x].

(** [new Set(iterable)] *)
Definition from (l : list nat) : t := foldl (λ s x, add x s) empty l.

(** [set.size] *)
Definition size (s : t) : nat := length s.

End JsSet.

(** token -> Set(docIndex) *)
Abbreviation Index := (gmap string (list nat)).

(** ** Rows *)

Module Company.

(** A row: the fields the typedef names, each possibly absent or null
    ([None]), and any further properties. *)
Record t : Type := mk {
  id : string;
  name : option string;
  city : option string;
  type : option string;
  address : option string;
  extra : gmap string string
}.

(** [row?.[f]], with [None] for [undefined] and [null].  A row that is
    itself [null] reads as a row all of whose fields are absent. *)
Definition prop (row : t) (f : string) : option string :=
  if decide (f = "id") then Some (id row)
  else if decide (f = "name") then name row
  else if decide (f = "city") then city row
  else if decide (f = "type") then type row
  else if decide (f = "address") then address row
  else extra row !! f.

End Company.

(** ** buildIndex *)

Definition fields : list string := ["name"; "city"; "type"].

(** [if (!idx.has(tok)) idx.set(tok, new Set()); idx.get(tok).add(i);] *)
Definition add_posting (i : nat) (idx : Index) (tok : string) : result Index :=
  let idx1 :=
    match idx !! tok with
    | Some _ => idx
    | None => <[tok := JsSet.empty]> idx
    end in
  match idx1 !! tok with
  | Some set => Ok (<[tok := JsSet.add i set]> idx1)
  | None => TypeError
  end.

(** The body of [fields.forEach]: the value of field [f] of the row, the
    empty string when absent, lower-cased, split, and each token posted. *)
Definition index_field (row : Company.t) (i : nat) (idx : Index) (f : string)
    : result Index :=
  let v := Str.toLowerCase (default "" (Company.prop row f)) in
  forEach (λ idx tok _, add_posting i idx tok) (split_tokens v) idx.

(** The body of [rows.forEach]. *)
Definition index_row (idx : Index) (row : Company.t) (i : nat) : result Index :=
  forEach (λ idx f _, index_field row i idx f) fields idx.

Definition buildIndex (rows : list Company.t) : result Index :=
  forEach index_row rows ∅.

(** ** queryIndex *)

(** How the [for] loop over the query tokens ends: by one of its [return]
    statements, or by running out of tokens, with [current] as it then is
    ([None] for [null]). *)
Inductive loop_end : Type :=
  | Returned (out : list (option Company.t))
  | Finished (current : option JsSet.t).

Fixpoint intersect_loop (idx : Index) (toks : list string)
    (current : option JsSet.t) : loop_end :=
  match toks with
  | [] => Finished current
  | t :: toks' =>
      match idx !! t with
      | None => Returned []
      | Some set =>
          let current' :=
            match current with
            | Some cur => JsSet.from (filter (λ x, JsSet.has x set = true) cur)
            | None => JsSet.from set
            end in
          if Nat.eqb (JsSet.size current') 0 then Returned []
          else intersect_loop idx toks' (Some current')
      end
  end.

(** [[...current]]: spreading [null] throws. *)
Definition spread (current : option JsSet.t) : result (list nat) :=
  match current with
  | Some cur => Ok cur
  | None => TypeError
  end.

(** [q.split(/\s+/)] *)
Definition split_spaces (q : string) : list string :=
  Str.split Char.is_space q.

(** The rows returned are those of [rows] ([Some]), or [undefined] ([None])
    where a position of the index lies outside [rows]. *)
Definition queryIndex (query : string) (rows : list Company.t) (idx : Index)
    : result (list (option Company.t)) :=
  let q := Str.toLowerCase (Str.trim query) in
  if negb (Str.truthy q) then Ok (Some <$> rows)
  else
    let toks := split_spaces q in
    match intersect_loop idx toks None with
    | Returned out => Ok out
    | Finished current =>
        members ← spread current;
        Ok ((λ i, rows !! i) <$> take 1000 members)
    end.

(** ** The example of the specification *)

Module Sample.

Definition row (n c : string) : Company.t :=
  Company.mk "" (Some n) (Some c) None None ∅.

Definition records : list Company.t :=
  [ row "Alpine Watch AG" "Zurich";
    row "Geneva Trading SA" "Geneva";
    row "Alpine Textiles" "Basel" ].

Definition run (query : string) : result (list (option Company.t)) :=
  idx ← buildIndex records; queryIndex query records idx.

End Sample.

(** ** The query, as [queryIndex] reads it *)

(** [query.trim().toLowerCase()], and the tokens [queryIndex] splits it
    into. *)
Definition normalize_query (query : string) : string :=
  Str.toLowerCase (Str.trim query).

Definition query_tokens (query : string) : list string :=
  split_spaces (normalize_query query).

(** Position [i] is in the position set of every token of [toks]. *)
Definition in_every_set (idx : Index) (toks : list string) (i : nat) : bool :=
  forallb (λ t, match idx !! t with
                | Some set => JsSet.has i set
                | None => false
                end) toks.

(** The match set of the specification: the positions below [n] that are in
    the set of every token, in ascending order. *)
Definition matching (idx : Index) (toks : list string) (n : nat) : list nat :=
  filter (λ i, in_every_set idx toks i = true) (seq 0 n).

(** ** Notions used in the statements *)

(** A string whose characters are left alone by [toLowerCase]. *)
Definition lower_fixed (c : ascii) : bool :=
  bool_decide (Char.to_lower c = c).

(** A token: a non-empty string of lower-cased letters and digits. *)
Definition token_char (c : ascii) : bool :=
  lower_fixed c && negb (Char.is_separator c).

Definition is_token (t : string) : Prop :=
  Str.truthy t = true ∧ Str.forallb token_char t = true.

(** The string starts with a character that is no white space. *)
Definition starts_word (s : string) : bool :=
  match s with
  | EmptyString => false
  | String c _ => negb (Char.is_space c)
  end.


(** [words] are non-empty and hold no separator. *)
Definition words (sep : ascii → bool) (ws : list string) : Prop :=
  Forall (λ w, Str.truthy w = true ∧ Str.forallb (λ c, negb (sep c)) w = true) ws.

(** The tokens of the three indexed fields of a row, an absent field
    counting as the empty string. *)
Definition indexed_tokens (row : Company.t) : list string :=
  tokenize (default "" (Company.name row))
  ++ tokenize (default "" (Company.city row))
  ++ tokenize (default "" (Company.type row)).

(** The positions, counted from [k], of the rows that hold token [t] in an
    indexed field. *)
Fixpoint positions (t : string) (k : nat) (rows : list Company.t) : list nat :=
  match rows with
  | [] => []
  | row :: rows' =>
      (if bool_decide (t ∈ indexed_tokens row) then [k] else [])
      ++ positions t (S k) rows'
  end.

(** A position set after more positions were added at its end; no set is
    made where there is nothing to add. *)
Definition extend (o : option (list nat)) (ps : list nat) : option (list nat) :=
  match ps with
  | [] => o
  | _ :: _ => Some (default [] o ++ ps)
  end.

(** Below [k]: every position of every set of the index is. *)
Definition below (k : nat) (idx : Index) : Prop :=
  ∀ t s i, idx !! t = Some s → i ∈ s → i < k.

(** [idx] maps each token to the ascending list of the positions of the
    rows that hold it in an indexed field, and has no other key. *)
Definition is_index (rows : list Company.t) (idx : Index) : Prop :=
  ∀ t, idx !! t = extend None (positions t 0 rows).

(** The row with the empty string written into its absent indexed
    fields. *)
Definition fill_absent (row : Company.t) : Company.t :=
  Company.mk (Company.id row)
    (Some (default "" (Company.name row)))
    (Some (default "" (Company.city row)))
    (Some (default "" (Company.type row)))
    (Company.address row) (Company.extra row).

(** [x] is among the entries that [query] returns on the index built from
    [rows]. *)
Definition returned_by (query : string) (rows : list Company.t)
    (x : option Company.t) : Prop :=
  ∃ (idx : Index) out,
    buildIndex rows = Ok idx ∧ queryIndex query rows idx = Ok out ∧ x ∈ out.

(** ** Collections used below *)

(** A row whose address holds a token that its indexed fields lack. *)
Definition address_rows : list Company.t :=
  [ Company.mk "1" (Some "Alpine Watch AG") (Some "Zurich") None
      (Some "Bahnhofstrasse 1") ∅ ].

(** A row with a hyphen in its name. *)
Definition hyphen_rows : list Company.t :=
  [Sample.row "Alpine-Watch AG" "Zurich"].

Definition hyphen_run (query : string) : result (list (option Company.t)) :=
  idx ← buildIndex hyphen_rows; queryIndex query hyphen_rows idx.

(** A collection of a thousand and one rows that all hold the token [a];
    the last one alone holds [b]. *)
Definition cap_first : Company.t := Sample.row "a" "".

Definition cap_last : Company.t := Sample.row "a b" "".

Definition cap_rows : list Company.t := replicate 1000 cap_first ++ [cap_last].

(** ** Loading the data set *)

(** A value as [JSON.parse] returns it.  The code never looks into a
    number, so the type of numbers is left open. *)
#[warnings="-register-all"]
Inductive value (number : Type) : Type :=
  | Null
  | Bool (b : bool)
  | Num (x : number)
  | Str (s : string)
  | Arr (items : list (value number))
  | Obj (props : gmap string (value number)).
Arguments Null {number}.
Arguments Bool {number} b.
Arguments Num {number} x.
Arguments Str {number} s.
Arguments Arr {number} items.
Arguments Obj {number} props.

(** LINE FEED and CARRIAGE RETURN. *)
Definition is_lf (c : ascii) : bool := bool_decide (c = "010"%char).

Definition is_cr (c : ascii) : bool := bool_decide (c = "013"%char).

(** [c] goes in front of the first piece. *)
Definition push_char (c : ascii) (pieces : list string) : list string :=
  match pieces with
  | piece :: pieces' => String c piece :: pieces'
  | [] => [String c EmptyString]
  end.

(** [text.split(/\r?\n/)]: the text is cut at every LINE FEED, and the
    CARRIAGE RETURN right before one goes with it. *)
Fixpoint split_lines (text : string) : list string :=
  match text with
  | EmptyString => [EmptyString]
  | String c rest =>
      if is_lf c then EmptyString :: split_lines rest
      else
        match rest with
        | String c' rest' =>
            if is_cr c && is_lf c' then EmptyString :: split_lines rest'
            else push_char c (split_lines rest)
        | EmptyString => push_char c (split_lines rest)
        end
  end.

(** [text.split(/\r?\n/).filter(Boolean)] *)
Definition nonempty_lines (text : string) : list string :=
  filter (λ ln, Str.truthy ln = true) (split_lines text).

(** [array.map((x, i) => f)], where [f] may throw. *)
Fixpoint map_from {A B : Type} (f : A → nat → result B) (i : nat)
    (arr : list A) : result (list B) :=
  match arr with
  | [] => Ok []
  | x :: arr' => y ← f x i; ys ← map_from f (S i) arr'; Ok (y :: ys)
  end.

Section Load.

Context {number : Type}.

(** The number that an array index, or an index plus one, is. *)
Context (num_of_nat : nat → number).

(** [JSON.parse], with [None] where it throws. *)
Context (JSON_parse : string → option (value number)).

(** [JSON.parse(ln)], or [{ id: `line-${i}`, name: ln }] when that
    throws. *)
Definition parse_line (i : nat) (ln : string) : value number :=
  match JSON_parse ln with
  | Some v => v
  | None => Obj {[ "id" := Str ("line-" +:+ pretty i); "name" := Str ln ]}
  end.

(** [{ id: i+1, name }] *)
Definition name_only (i : nat) (name : string) : value number :=
  Obj {[ "id" := Num (num_of_nat (i + 1)); "name" := Str name ]}.

(** [loadCompaniesFromURL], from the text on: [text] is what
    [await fetchTextMaybeGzip(url, { gz })] gave. *)
Definition loadCompaniesFromURL (jsonl : bool) (text : string) : value number :=
  if jsonl then Arr (imap parse_line (nonempty_lines text))
  else
    match JSON_parse text with
    | Some v => v
    | None => Arr (imap name_only (nonempty_lines text))
    end.

(** ** Normalising the rows *)

(** [d.k], for the twelve property names that the code reads; none of them
    is a property that a string, an array, a number, a boolean or
    [Object.prototype] has.  Reading a property of [null] throws; [None] is
    [undefined]. *)
Definition get_prop (d : value number) (k : string)
    : result (option (value number)) :=
  match d with
  | Null => TypeError
  | Obj props => Ok (props !! k)
  | Bool _ | Num _ | Str _ | Arr _ => Ok None
  end.

(** [a ?? b], where [b] may be [undefined] too, and where it may not. *)
Definition nullish_or (a b : option (value number)) : option (value number) :=
  match a with
  | None | Some Null => b
  | Some _ => a
  end.

Definition nullish (a : option (value number)) (b : value number)
    : value number :=
  match a with
  | None | Some Null => b
  | Some v => v
  end.

(** [...d] in an object literal: the own enumerable properties of [d],
    which for an array and for a string are its indices. *)
Definition spread_props (d : value number) : gmap string (value number) :=
  match d with
  | Obj props => props
  | Arr items => list_to_map (imap (λ k v, (pretty k, v)) items)
  | Str s =>
      list_to_map
        (imap (λ k c, (pretty k, Str (String c EmptyString)))
           (String.list_ascii_of_string s))
  | Null | Bool _ | Num _ => ∅
  end.

(** The callback of [data.map] in the effect of [App]: the five fields,
    each from its property or from the first of its other names that is
    neither [undefined] nor [null] or else a default, and then the
    properties of [d] itself, which overwrite them. *)
Definition normalize_row (d : value number) (i : nat)
    : result (gmap string (value number)) :=
  id ← get_prop d "id";
  name ← get_prop d "name";
  companyName ← get_prop d "companyName";
  title ← get_prop d "title";
  city ← get_prop d "city";
  location ← get_prop d "location";
  town ← get_prop d "town";
  type ← get_prop d "type";
  category ← get_prop d "category";
  industry ← get_prop d "industry";
  address ← get_prop d "address";
  addr ← get_prop d "addr";
  Ok (spread_props d
      ∪ {[ "id" := nullish id (Num (num_of_nat (i + 1)));
           "name" := nullish (nullish_or (nullish_or name companyName) title)
                       (Str ("Company " +:+ pretty (i + 1)));
           "city" := nullish (nullish_or (nullish_or city location) town)
                       (Str "");
           "type" := nullish (nullish_or (nullish_or type category) industry)
                       (Str "");
           "address" := nullish (nullish_or address addr) (Str "") ]}).

(** [data.map(...)]: calling [map] on what is no array throws. *)
Definition normalize (data : value number)
    : result (list (gmap string (value number))) :=
  match data with
  | Arr items => map_from normalize_row 0 items
  | Null | Bool _ | Num _ | Str _ | Obj _ => TypeError
  end.

(** What the effect of [App] hands to [setRaw], or the error it reports
    instead. *)
Definition load_rows (jsonl : bool) (text : string)
    : result (list (gmap string (value number))) :=
  normalize (loadCompaniesFromURL jsonl text).

End Load.

(** What reading property [k] of a row that is not [null] gives. *)
Definition prop_of {number : Type} (d : value number) (k : string)
    : option (value number) :=
  match d with
  | Obj props => props !! k
  | Null | Bool _ | Num _ | Str _ | Arr _ => None
  end.

(** The five fields as [normalize_row] computes them for the row [d] at
    index [i], before the properties of [d] overwrite them. *)
Definition computed_fields {number : Type} (num_of_nat : nat → number)
    (d : value number) (i : nat) : gmap string (value number) :=
  {[ "id" := nullish (prop_of d "id") (Num (num_of_nat (i + 1)));
     "name" := nullish (nullish_or (nullish_or (prop_of d "name")
                                      (prop_of d "companyName"))
                          (prop_of d "title"))
                 (Str ("Company " +:+ pretty (i + 1)));
     "city" := nullish (nullish_or (nullish_or (prop_of d "city")
                                      (prop_of d "location"))
                          (prop_of d "town"))
                 (Str "");
     "type" := nullish (nullish_or (nullish_or (prop_of d "type")
                                      (prop_of d "category"))
                          (prop_of d "industry"))
                 (Str "");
     "address" := nullish (nullish_or (prop_of d "address") (prop_of d "addr"))
                    (Str "") ]}.

(** The record that a line of a list of names becomes. *)
Definition named_row {number : Type} (num_of_nat : nat → number)
    (i : nat) (name : string) : gmap string (value number) :=
  {[ "id" := Num (num_of_nat (i + 1)); "name" := Str name;
     "city" := Str ""; "type" := Str ""; "address" := Str "" ]}.

(** A source row with a [null] name and another name, and the row that
    normalising it at index 0 gives. *)
Definition null_name_row : value N :=
  Obj {[ "name" := Null; "companyName" := Str "Acme" ]}.

Definition null_name_normal : gmap string (value N) :=
  {[ "id" := Num 1%N; "name" := Null; "companyName" := Str "Acme";
     "city" := Str ""; "type" := Str ""; "address" := Str "" ]}.

(** A stand-in for [JSON.parse] in the examples: it reads [null] and the
    empty object, and throws on every other text. *)
Definition toy_parse (s : string) : option (value N) :=
  if decide (s = "null") then Some Null
  else if decide (s = "{}") then Some (Obj ∅)
  else None.

(** LINE FEED, and CARRIAGE RETURN with LINE FEED, as strings. *)
Definition LF : string := String "010" EmptyString.

Definition CRLF : string := String "013" (String "010" EmptyString).

(** A text of two lines for the JSON Lines mode, of which [toy_parse]
    reads the first, and the rows it is loaded as. *)
Definition toy_text : string := "{}" +:+ LF +:+ "x y" +:+ CRLF.

Definition toy_rows : list (gmap string (value N)) :=
  [ {[ "id" := Num 1%N; "name" := Str "Company 1"; "city" := Str "";
       "type" := Str ""; "address" := Str "" ]};
    {[ "id" := Str "line-1"; "name" := Str "x y"; "city" := Str "";
       "type" := Str ""; "address" := Str "" ]} ].

(** The string ends with a CARRIAGE RETURN. *)
Fixpoint ends_cr (s : string) : bool :=
  match s with
  | EmptyString => false
  | String c EmptyString => is_cr c
  | String _ rest => ends_cr rest
  end.

(** A line: not empty, and without LINE FEED. *)
Definition is_line (ln : string) : Prop :=
  Str.truthy ln = true ∧ Str.forallb (λ c, negb (is_lf c)) ln = true.

(** The five fields that normalising a row gives it. *)
Definition normal_fields : list string :=
  ["id"; "name"; "city"; "type"; "address"].

(** A decimal digit. *)
Definition is_digit (c : ascii) : bool :=
  bool_decide (c ∈ ["0"; "1"; "2"; "3"; "4"; "5"; "6"; "7"; "8"; "9"]%char).

(** Case analysis on the 256 characters. *)
Ltac all_chars c :=
  destruct c as [[] [] [] [] [] [] [] []]; vm_compute;
  try reflexivity; try discriminate.

(** * Properties *)

(** ** The examples of the specification *)

Example tokenize_name : tokenize "Alpine Watch AG" = ["alpine"; "watch"; "ag"].
Proof. reflexivity. Qed.

Example tokenize_punct : tokenize "  St.-Gallen, (CH) " = ["st"; "gallen"; "ch"].
Proof. reflexivity. Qed.

Example split_edges : Str.split Char.is_space " a  b " = [""; "a"; "b"; ""].
Proof. reflexivity. Qed.

Example trim_edges : Str.trim "  a b   " = "a b".
Proof. reflexivity. Qed.

Example query_alpine :
  Sample.run "alpine" = Ok (Some <$> [Sample.row "Alpine Watch AG" "Zurich";
                                       Sample.row "Alpine Textiles" "Basel"]).
Proof. vm_compute. reflexivity. Qed.

Example query_alpine_zurich :
  Sample.run "alpine zurich" = Ok [Some (Sample.row "Alpine Watch AG" "Zurich")].
Proof. vm_compute. reflexivity. Qed.

Example query_nomatch : Sample.run "nomatch" = Ok [].
Proof. vm_compute. reflexivity. Qed.

Example query_empty : Sample.run "" = Ok (Some <$> Sample.records).
Proof. vm_compute. reflexivity. Qed.

(** ** Characters and strings *)

Module CharFacts.

Lemma lower_idem c :
  Char.to_lower (Char.to_lower c) = Char.to_lower c.
Proof. all_chars c. Qed.

Lemma lower_space c : Char.is_space (Char.to_lower c) = Char.is_space c.
Proof. all_chars c. Qed.


Lemma space_separator c : Char.is_space c = true → Char.is_separator c = true.
Proof. all_chars c. Qed.

End CharFacts.

Module StrFacts.

Lemma app_cons c s t : String c s +:+ t = String c (s +:+ t).
Proof. reflexivity. Qed.

Lemma app_empty_l t : EmptyString +:+ t = t.
Proof. reflexivity. Qed.

Lemma app_empty_r s : s +:+ EmptyString = s.
Proof. induction s as [|c s IH]; [done|]. by rewrite app_cons, IH. Qed.

Lemma map_app f s t : Str.map f (s +:+ t) = Str.map f s +:+ Str.map f t.
Proof.
  induction s as [|c s IH]; [done|].
  rewrite app_cons. simpl. by rewrite IH.
Qed.

Lemma forallb_app p s t :
  Str.forallb p (s +:+ t) = Str.forallb p s && Str.forallb p t.
Proof.
  induction s as [|c s IH]; [done|].
  rewrite app_cons. simpl. by rewrite IH, andb_assoc.
Qed.

Lemma forallb_impl (p q : ascii → bool) s :
  (∀ c, p c = true → q c = true) →
  Str.forallb p s = true → Str.forallb q s = true.
Proof.
  intros Hpq. induction s as [|c s IH]; simpl; [done|].
  rewrite !andb_true_iff. intros [Hc Hs]. auto.
Qed.

Lemma lower_fixed_map s :
  Str.forallb lower_fixed s = true → Str.toLowerCase s = s.
Proof.
  unfold Str.toLowerCase. induction s as [|c s IH]; simpl; [done|].
  rewrite andb_true_iff. intros [Hc Hs].
  apply bool_decide_eq_true in Hc. by rewrite Hc, IH.
Qed.

Lemma lower_is_fixed s : Str.forallb lower_fixed (Str.toLowerCase s) = true.
Proof.
  unfold Str.toLowerCase. induction s as [|c s IH]; simpl; [done|].
  rewrite IH, andb_true_r. apply bool_decide_eq_true, CharFacts.lower_idem.
Qed.

Lemma toLowerCase_idem s : Str.toLowerCase (Str.toLowerCase s) = Str.toLowerCase s.
Proof. apply lower_fixed_map, lower_is_fixed. Qed.

(** *** Splitting *)

Lemma split_from_nonempty sep b s : Str.split_from sep b s ≠ [].
Proof.
  revert b. induction s as [|c s IH]; intros b; simpl; [done|].
  destruct (sep c); [destruct b; [apply IH | done]|].
  by destruct (Str.split_from sep false s).
Qed.

(** No piece holds a separator, and a property of the characters of [s] is
    one of the characters of its pieces. *)
Lemma split_from_pieces (p : ascii → bool) sep b s :
  Str.forallb p s = true →
  Forall (λ piece, Str.forallb (λ c, p c && negb (sep c)) piece = true)
         (Str.split_from sep b s).
Proof.
  revert b. induction s as [|c s IH]; intros b; simpl.
  { intros _. by repeat constructor. }
  rewrite andb_true_iff. intros [Hc Hs]. destruct (sep c) eqn:Hsep.
  - destruct b; [by apply IH|]. constructor; [done | by apply IH].
  - specialize (IH false Hs).
    destruct (Str.split_from sep false s) as [|piece pieces].
    + repeat constructor. simpl. by rewrite Hc, Hsep.
    + inversion_clear IH. constructor; [|done]. simpl. by rewrite Hc, Hsep.
Qed.

(** After a run, a string that starts a piece splits as it does on its
    own. *)
Lemma split_from_run sep c s :
  sep c = false →
  Str.split_from sep true (String c s) = Str.split_from sep false (String c s).
Proof. intros Hc. simpl. by rewrite Hc. Qed.

(** A word without separators, in front of [s], joins the first piece of
    [s]. *)
Lemma split_from_word sep w s :
  Str.forallb (λ c, negb (sep c)) w = true →
  Str.split_from sep false (w +:+ s) =
    match Str.split_from sep false s with
    | piece :: pieces => (w +:+ piece) :: pieces
    | [] => [w]
    end.
Proof.
  pose proof (split_from_nonempty sep false s) as Hne.
  induction w as [|c w IH]; simpl.
  { intros _. rewrite app_empty_l. by destruct (Str.split_from sep false s). }
  rewrite andb_true_iff, negb_true_iff. intros [Hc Hw].
  rewrite ?app_cons. simpl. rewrite Hc, (IH Hw).
  by destruct (Str.split_from sep false s).
Qed.

Lemma split_word sep w :
  Str.forallb (λ c, negb (sep c)) w = true → Str.split sep w = [w].
Proof.
  intros Hw. unfold Str.split.
  rewrite <-(app_empty_r w) at 1. rewrite (split_from_word _ _ _ Hw). simpl.
  by rewrite app_empty_r.
Qed.

(** Words joined by one separator character split into the same words. *)
Lemma split_join_words sep g ws :
  sep g = true → words sep ws → ws ≠ [] →
  Str.split sep (Str.join (String g EmptyString) ws) = ws.
Proof.
  intros Hg. unfold Str.split. induction 1 as [|w ws [Hw1 Hw2] Hws IH]; [done|].
  intros _. destruct ws as [|w' ws].
  { simpl. by apply split_word. }
  change (Str.join _ (w :: w' :: ws))
    with (w +:+ String g EmptyString +:+ Str.join (String g EmptyString) (w' :: ws)).
  rewrite (split_from_word _ _ _ Hw2), app_cons, app_empty_l.
  cbn [Str.split_from]. rewrite Hg.
  assert (Str.split_from sep true (Str.join (String g EmptyString) (w' :: ws))
          = w' :: ws) as ->.
  { inversion Hws as [|?? [Hw'1 Hw'2] _]; subst.
    destruct w' as [|c w']; [done|].
    simpl in Hw'2. apply andb_true_iff in Hw'2 as [Hc%negb_true_iff _].
    assert (∃ r, Str.join (String g EmptyString) (String c w' :: ws) = String c r)
      as [r Hr] by (destruct ws; simpl; eauto).
    rewrite Hr, split_from_run, <-Hr by done. by apply IH. }
  by rewrite app_empty_r.
Qed.

End StrFacts.

Module TrimFacts.

Lemma truthy_app_r s t : Str.truthy t = true → Str.truthy (s +:+ t) = true.
Proof. by destruct s. Qed.

Lemma trimStart_blank s :
  Str.forallb Char.is_space s = true → Str.trimStart s = EmptyString.
Proof.
  induction s as [|c s IH]; simpl; [done|].
  rewrite andb_true_iff. intros [-> Hs]. by apply IH.
Qed.

Lemma trim_blank s : Str.forallb Char.is_space s = true → Str.trim s = EmptyString.
Proof. intros Hs. unfold Str.trim. by rewrite trimStart_blank. Qed.

Lemma trimEnd_word w :
  Str.forallb (λ c, negb (Char.is_space c)) w = true → Str.trimEnd w = w.
Proof.
  induction w as [|c w IH]; simpl; [done|].
  rewrite andb_true_iff, negb_true_iff. intros [Hc Hw].
  rewrite (IH Hw), Hc. by destruct w.
Qed.

Lemma trimEnd_app s t :
  Str.truthy (Str.trimEnd t) = true → Str.trimEnd (s +:+ t) = s +:+ Str.trimEnd t.
Proof.
  intros Ht. induction s as [|c s IH]; [done|].
  rewrite !StrFacts.app_cons. simpl. rewrite IH.
  pose proof (truthy_app_r s _ Ht). by destruct (s +:+ Str.trimEnd t).
Qed.

Lemma join_cons_word g c w ws :
  ∃ rest, Str.join g (String c w :: ws) = String c rest.
Proof. destruct ws; simpl; eauto. Qed.

Lemma truthy_join g w ws :
  Str.truthy w = true → Str.truthy (Str.join g (w :: ws)) = true.
Proof.
  destruct w as [|c w]; [done|]. intros _.
  by destruct (join_cons_word g c w ws) as [rest ->].
Qed.

(** Words joined by single spaces are already trimmed. *)
Lemma trimEnd_words ws :
  words Char.is_space ws →
  Str.trimEnd (Str.join " " ws) = Str.join " " ws.
Proof.
  induction 1 as [|w ws [Hw1 Hw2] Hws IH]; [done|].
  destruct ws as [|w' ws]; [by apply trimEnd_word|].
  change (Str.join " " (w :: w' :: ws))
    with (w +:+ " " +:+ Str.join " " (w' :: ws)).
  assert (Str.truthy (Str.join " " (w' :: ws)) = true) as Hj.
  { apply truthy_join. by inversion_clear Hws as [|?? [? ?] _]. }
  assert (Str.trimEnd (" " +:+ Str.join " " (w' :: ws))
          = " " +:+ Str.join " " (w' :: ws)) as Hs.
  { rewrite trimEnd_app; rewrite IH; done. }
  rewrite trimEnd_app; rewrite Hs; [done | by apply truthy_app_r].
Qed.

Lemma trim_words ws :
  words Char.is_space ws → Str.trim (Str.join " " ws) = Str.join " " ws.
Proof.
  intros Hws. unfold Str.trim.
  assert (Str.trimStart (Str.join " " ws) = Str.join " " ws) as ->;
    [|by apply trimEnd_words].
  destruct Hws as [|w ws [Hw1 Hw2] _]; [done|].
  destruct w as [|c w]; [done|].
  destruct (join_cons_word " " c w ws) as [rest ->].
  simpl in Hw2. apply andb_true_iff in Hw2 as [Hc%negb_true_iff _].
  simpl. by rewrite Hc.
Qed.

End TrimFacts.

(** ** Sets of positions *)

Module SetFacts.

Lemma has_true x s : JsSet.has x s = true ↔ x ∈ s.
Proof. unfold JsSet.has. apply bool_decide_eq_true. Qed.

Lemma add_member x s : x ∈ s → JsSet.add x s = s.
Proof. intros Hx. unfold JsSet.add. by rewrite (proj2 (has_true x s) Hx). Qed.

Lemma add_fresh x s : x ∉ s → JsSet.add x s = s ++ [x].
Proof.
  intros Hx. unfold JsSet.add. destruct (JsSet.has x s) eqn:E; [|done].
  by apply has_true in E.
Qed.

Lemma elem_of_add y x s : y ∈ JsSet.add x s ↔ y = x ∨ y ∈ s.
Proof.
  destruct (decide (x ∈ s)) as [Hx|Hx].
  - rewrite add_member by done. split; [tauto | by intros [->|?]].
  - rewrite add_fresh, elem_of_app, list_elem_of_singleton by done. tauto.
Qed.

Lemma add_add x s : JsSet.add x (JsSet.add x s) = JsSet.add x s.
Proof. apply add_member, elem_of_add. by left. Qed.

Lemma add_all s l :
  NoDup (s ++ l) → foldl (λ s x, JsSet.add x s) s l = s ++ l.
Proof.
  revert s. induction l as [|x l IH]; intros s Hnd; simpl.
  { by rewrite app_nil_r. }
  assert (x ∉ s) as Hx.
  { apply NoDup_app in Hnd as (_ & Hd & _). intros Hin. apply (Hd x Hin). by left. }
  rewrite add_fresh by done.
  rewrite IH; rewrite <-app_assoc; done.
Qed.

(** Copying a set, or building one from a list without repetitions,
    keeps the order. *)
Lemma from_NoDup l : NoDup l → JsSet.from l = l.
Proof. intros Hnd. unfold JsSet.from, JsSet.empty. by rewrite add_all. Qed.

Lemma sorted_NoDup (l : list nat) : StronglySorted lt l → NoDup l.
Proof.
  induction 1 as [|x l Hl IH Hx]; constructor; [|done].
  intros Hin. rewrite Forall_forall in Hx. specialize (Hx x Hin). lia.
Qed.

Lemma sorted_snoc (l : list nat) x :
  StronglySorted lt l → (∀ y, y ∈ l → y < x) → StronglySorted lt (l ++ [x]).
Proof.
  intros Hl Hx. apply StronglySorted_app_2; [|done|repeat constructor].
  intros y z Hy ->%list_elem_of_singleton. by apply Hx.
Qed.

Lemma sorted_filter (P : nat → Prop) `{∀ x, Decision (P x)} (l : list nat) :
  StronglySorted lt l → StronglySorted lt (filter P l).
Proof.
  induction 1 as [|x l Hl IH Hx]; [constructor|].
  rewrite filter_cons. destruct (decide (P x)); [|done].
  constructor; [done|]. rewrite Forall_forall in *.
  intros y [_ Hy]%list_elem_of_filter. by apply Hx.
Qed.

Lemma sorted_seq j n : StronglySorted lt (seq j n).
Proof.
  revert j. induction n as [|n IH]; intros j; simpl; constructor; [apply IH|].
  apply Forall_forall. intros y Hy%elem_of_seq. lia.
Qed.

(** Two ascending lists with the same members are the same list. *)
Lemma sorted_ext (l k : list nat) :
  StronglySorted lt l → StronglySorted lt k → (∀ x, x ∈ l ↔ x ∈ k) → l = k.
Proof.
  intros Hl Hk Hlk. apply (StronglySorted_unique_strong lt); [|done|done|].
  - intros x y _ _ Hxy Hyx. lia.
  - apply NoDup_Permutation; auto using sorted_NoDup.
Qed.

(** An ascending list of positions below [n] lists the positions below
    [n] that belong to it. *)
Lemma sorted_as_filter (l : list nat) n :
  StronglySorted lt l → (∀ x, x ∈ l → x < n) →
  l = filter (λ x, x ∈ l) (seq 0 n).
Proof.
  intros Hl Hn. apply sorted_ext; [done | apply sorted_filter, sorted_seq |].
  intros x. rewrite list_elem_of_filter, elem_of_seq.
  split; [|tauto]. intros Hx. specialize (Hn x Hx). split; [done | lia].
Qed.

End SetFacts.

Module IndexFacts.

Lemma add_posting_spec i (idx : Index) tok :
  add_posting i idx tok
  = Ok (<[tok := JsSet.add i (default [] (idx !! tok))]> idx).
Proof.
  unfold add_posting. destruct (idx !! tok) as [s|] eqn:E; simpl.
  - by rewrite E.
  - by rewrite lookup_insert_eq, insert_insert_eq.
Qed.

(** Posting the tokens of one field value at position [i]. *)
Lemma post_tokens i toks : ∀ k (idx : Index),
  ∃ idx' : Index,
    forEach_from (λ idx tok _, add_posting i idx tok) k toks idx = Ok idx'
    ∧ ∀ t, idx' !! t =
           if bool_decide (t ∈ toks)
           then Some (JsSet.add i (default [] (idx !! t)))
           else idx !! t.
Proof.
  induction toks as [|tok toks IH]; intros k idx.
  { exists idx. split; [done|]. intros t.
    rewrite bool_decide_eq_false_2; [done | apply not_elem_of_nil]. }
  cbn [forEach_from]. rewrite add_posting_spec.
  destruct (IH (S k) (<[tok := JsSet.add i (default [] (idx !! tok))]> idx))
    as (idx' & Hrun & Hget).
  exists idx'. split; [exact Hrun|]. intros t. rewrite Hget.
  destruct (decide (t = tok)) as [->|Hne].
  - rewrite lookup_insert_eq. simpl. rewrite SetFacts.add_add.
    rewrite (bool_decide_eq_true_2 (tok ∈ tok :: toks)) by (by left).
    by destruct (bool_decide (tok ∈ toks)).
  - rewrite lookup_insert_ne by done.
    rewrite (bool_decide_ext (t ∈ tok :: toks) (t ∈ toks)); [done|].
    rewrite elem_of_cons. tauto.
Qed.

Lemma index_field_spec row i (idx : Index) f :
  ∃ idx' : Index,
    index_field row i idx f = Ok idx'
    ∧ ∀ t, idx' !! t =
           if bool_decide (t ∈ tokenize (default "" (Company.prop row f)))
           then Some (JsSet.add i (default [] (idx !! t)))
           else idx !! t.
Proof. apply post_tokens. Qed.

Lemma index_row_spec (idx : Index) row i :
  ∃ idx' : Index,
    index_row idx row i = Ok idx'
    ∧ ∀ t, idx' !! t =
           if bool_decide (t ∈ indexed_tokens row)
           then Some (JsSet.add i (default [] (idx !! t)))
           else idx !! t.
Proof.
  unfold index_row, forEach, fields. cbn [forEach_from].
  destruct (index_field_spec row i idx "name") as (idx1 & -> & H1).
  cbn [mbind result_bind].
  destruct (index_field_spec row i idx1 "city") as (idx2 & -> & H2).
  cbn [mbind result_bind].
  destruct (index_field_spec row i idx2 "type") as (idx3 & -> & H3).
  cbn [mbind result_bind]. exists idx3. split; [done|]. intros t.
  rewrite H3, H2, H1. unfold indexed_tokens.
  change (Company.prop row "name") with (Company.name row).
  change (Company.prop row "city") with (Company.city row).
  change (Company.prop row "type") with (Company.type row).
  set (n := tokenize (default "" (Company.name row))).
  set (c := tokenize (default "" (Company.city row))).
  set (y := tokenize (default "" (Company.type row))).
  rewrite (bool_decide_ext (t ∈ n ++ c ++ y) (t ∈ n ∨ t ∈ c ∨ t ∈ y))
    by (by rewrite !elem_of_app).
  rewrite !bool_decide_or.
  destruct (bool_decide (t ∈ n)), (bool_decide (t ∈ c)), (bool_decide (t ∈ y));
    simpl; by rewrite ?SetFacts.add_add.
Qed.

Lemma build_from rows : ∀ k (idx : Index),
  below k idx →
  ∃ idx' : Index,
    forEach_from index_row k rows idx = Ok idx'
    ∧ ∀ t, idx' !! t = extend (idx !! t) (positions t k rows).
Proof.
  induction rows as [|row rows IH]; intros k idx Hk.
  { by exists idx. }
  cbn [forEach_from positions].
  destruct (index_row_spec idx row k) as (idx1 & -> & H1).
  cbn [mbind result_bind].
  assert (∀ t, k ∉ default [] (idx !! t)) as Hfresh.
  { intros t Hin. destruct (idx !! t) as [s|] eqn:E; simpl in Hin.
    - specialize (Hk t s k E Hin). lia.
    - by apply not_elem_of_nil in Hin. }
  assert (below (S k) idx1) as Hk1.
  { intros t s i. rewrite H1. destruct (bool_decide _).
    - intros [= <-] [->|Hin]%SetFacts.elem_of_add; [lia|].
      destruct (idx !! t) as [s|] eqn:E; simpl in Hin.
      + specialize (Hk t s i E Hin). lia.
      + by apply not_elem_of_nil in Hin.
    - intros E Hin. specialize (Hk t s i E Hin). lia. }
  destruct (IH (S k) idx1 Hk1) as (idx' & -> & H').
  exists idx'. split; [done|]. intros t. rewrite H', H1.
  destruct (bool_decide (t ∈ indexed_tokens row)); [|done].
  rewrite SetFacts.add_fresh by apply Hfresh.
  destruct (positions t (S k) rows); simpl; [done|].
  by rewrite <-app_assoc.
Qed.

Lemma elem_of_positions t rows : ∀ k i,
  i ∈ positions t k rows ↔
  ∃ j r, i = k + j ∧ rows !! j = Some r ∧ t ∈ indexed_tokens r.
Proof.
  induction rows as [|row rows IH]; intros k i; cbn [positions].
  { rewrite elem_of_nil. split; [done|]. by intros (j & r & _ & ? & _). }
  rewrite elem_of_app, IH. split.
  - intros [Hi|(j & r & -> & Hj & Ht)].
    + destruct (bool_decide (t ∈ indexed_tokens row)) eqn:E.
      * apply list_elem_of_singleton in Hi as ->.
        apply bool_decide_eq_true in E. exists 0, row. split; [lia | done].
      * by apply not_elem_of_nil in Hi.
    + exists (S j), r. split; [lia | done].
  - intros ([|j] & r & -> & Hj & Ht).
    + left. simpl in Hj. injection Hj as ->.
      rewrite bool_decide_eq_true_2 by done.
      apply list_elem_of_singleton. lia.
    + right. exists j, r. split; [lia | done].
Qed.

Lemma positions_sorted t rows : ∀ k, StronglySorted lt (positions t k rows).
Proof.
  induction rows as [|row rows IH]; intros k; cbn [positions]; [constructor|].
  destruct (bool_decide (t ∈ indexed_tokens row)); simpl; [|apply IH].
  constructor; [apply IH|]. apply Forall_forall.
  intros i (j & _ & -> & _)%elem_of_positions. lia.
Qed.

End IndexFacts.

Lemma buildIndex_is_index rows :
  ∃ idx : Index, buildIndex rows = Ok idx ∧ is_index rows idx.
Proof.
  destruct (IndexFacts.build_from rows 0 ∅) as (idx & Hrun & Hget).
  { intros t s i. by rewrite lookup_empty. }
  exists idx. split; [exact Hrun|]. intros t. by rewrite Hget, lookup_empty.
Qed.

Module IsIndex.

Section Facts.

Context (rows : list Company.t) (idx : Index) (Hidx : is_index rows idx).

Lemma lookup_Some t s :
  idx !! t = Some s → s = positions t 0 rows ∧ s ≠ [].
Proof. rewrite Hidx. destruct (positions t 0 rows); simpl; [done|]. by intros [= <-]. Qed.

Lemma lookup_None t : idx !! t = None → positions t 0 rows = [].
Proof. rewrite Hidx. by destruct (positions t 0 rows). Qed.

Lemma sorted t s : idx !! t = Some s → StronglySorted lt s.
Proof. intros [-> _]%lookup_Some. apply IndexFacts.positions_sorted. Qed.

Lemma member t s i :
  idx !! t = Some s →
  i ∈ s ↔ ∃ r, rows !! i = Some r ∧ t ∈ indexed_tokens r.
Proof.
  intros [-> _]%lookup_Some. rewrite IndexFacts.elem_of_positions. split.
  - intros (j & r & -> & Hj & Ht). by exists r.
  - intros (r & Hi & Ht). by exists i, r.
Qed.

Lemma in_range t s i : idx !! t = Some s → i ∈ s → i < length rows.
Proof.
  intros Hs Hi. apply (member t s i Hs) in Hi as (r & Hr & _).
  by apply lookup_lt_Some in Hr.
Qed.

(** A token is a key as soon as some row holds it. *)
Lemma key t i r :
  rows !! i = Some r → t ∈ indexed_tokens r → ∃ s, idx !! t = Some s ∧ i ∈ s.
Proof.
  intros Hr Ht.
  assert (i ∈ positions t 0 rows) as Hi.
  { apply IndexFacts.elem_of_positions. by exists i, r. }
  rewrite Hidx. destruct (positions t 0 rows) as [|p ps] eqn:E.
  - by apply not_elem_of_nil in Hi.
  - by exists (p :: ps).
Qed.

End Facts.

End IsIndex.

Module LoopFacts.

Lemma filter_true (l : list nat) : filter (λ _, true = true) l = l.
Proof.
  induction l as [|x l IH]; [done|]. by rewrite filter_cons_True, IH.
Qed.

Lemma filter_false (P : nat → Prop) `{∀ x, Decision (P x)} (l : list nat) :
  (∀ x, ¬ P x) → filter P l = [].
Proof.
  intros HP. induction l as [|x l IH]; [done|]. by rewrite filter_cons_False.
Qed.

(** The loop, entered with a set: it filters the set by the remaining
    tokens, and returns early only when nothing is left. *)
Lemma loop_some (idx : Index) toks : ∀ cur,
  NoDup cur →
  let res := filter (λ i, in_every_set idx toks i = true) cur in
  intersect_loop idx toks (Some cur) = Finished (Some res)
  ∨ (intersect_loop idx toks (Some cur) = Returned [] ∧ res = []).
Proof.
  induction toks as [|t toks IH]; intros cur Hnd; cbn zeta.
  { left. simpl. by rewrite filter_true. }
  cbn [intersect_loop]. destruct (idx !! t) as [set|] eqn:Ht.
  - rewrite SetFacts.from_NoDup by by apply NoDup_filter.
    assert (filter (λ i, in_every_set idx (t :: toks) i = true) cur
            = filter (λ i, in_every_set idx toks i = true)
                (filter (λ x, JsSet.has x set = true) cur)) as ->.
    { rewrite list_filter_filter. apply list_filter_iff. intros x.
      cbn [in_every_set forallb]. rewrite Ht, andb_true_iff. tauto. }
    destruct (filter (λ x, JsSet.has x set = true) cur) as [|y ys] eqn:E.
    + right. by rewrite filter_nil.
    + cbn [JsSet.size length Nat.eqb]. apply IH.
      rewrite <-E. by apply NoDup_filter.
  - right. split; [done|]. apply filter_false. intros x.
    cbn [in_every_set forallb]. by rewrite Ht.
Qed.

(** The loop as [queryIndex] enters it: with no set yet, and at least one
    token. *)
Lemma loop_none (idx : Index) t toks :
  (∀ t s, idx !! t = Some s → StronglySorted lt s) →
  ∃ res,
    (intersect_loop idx (t :: toks) None = Finished (Some res)
     ∨ (intersect_loop idx (t :: toks) None = Returned [] ∧ res = []))
    ∧ StronglySorted lt res
    ∧ ∀ i, i ∈ res ↔ in_every_set idx (t :: toks) i = true.
Proof.
  intros Hsorted. cbn [intersect_loop in_every_set forallb].
  destruct (idx !! t) as [set|] eqn:Ht.
  - pose proof (Hsorted t set Ht) as Hset.
    pose proof (SetFacts.sorted_NoDup _ Hset) as Hnd.
    rewrite SetFacts.from_NoDup by done.
    exists (filter (λ i, in_every_set idx toks i = true) set). split; [|split].
    + destruct set as [|y ys]; [right; by rewrite filter_nil|].
      cbn [JsSet.size length Nat.eqb]. by apply loop_some.
    + by apply SetFacts.sorted_filter.
    + intros i. rewrite list_elem_of_filter, andb_true_iff, SetFacts.has_true.
      tauto.
  - exists []. split; [by right|]. split; [constructor|].
    intros i. rewrite elem_of_nil. by split.
Qed.

(** Spreading never meets [null]: a loop that runs out of tokens has set
    [current], if it saw a token at all. *)
Lemma loop_finished (idx : Index) toks : ∀ current c,
  intersect_loop idx toks current = Finished c →
  toks ≠ [] ∨ is_Some current → is_Some c.
Proof.
  induction toks as [|t toks IH]; intros current c; cbn [intersect_loop].
  { intros [= <-] [?|?]; done. }
  destruct (idx !! t) as [set|]; [|done].
  destruct (Nat.eqb _ _); [done|]. intros Hloop _.
  apply (IH _ _ Hloop). right. by eexists.
Qed.

End LoopFacts.

Lemma query_tokens_nonempty query : query_tokens query ≠ [].
Proof. apply StrFacts.split_from_nonempty. Qed.

(** On the index of [rows], a query that is not blank returns the rows at
    the first thousand positions of the match set of its tokens. *)
Lemma queryIndex_matching rows (idx : Index) query :
  is_index rows idx →
  Str.truthy (normalize_query query) = true →
  queryIndex query rows idx
  = Ok ((λ i, rows !! i) <$>
          take 1000 (matching idx (query_tokens query) (length rows))).
Proof.
  intros Hidx Hq. unfold queryIndex. fold (normalize_query query).
  rewrite Hq. cbn [negb]. fold (query_tokens query).
  pose proof (query_tokens_nonempty query) as Hne.
  destruct (query_tokens query) as [|t toks]; [done|]. clear Hne.
  destruct (LoopFacts.loop_none idx t toks (IsIndex.sorted rows idx Hidx))
    as (res & Hloop & Hsorted & Hres).
  assert (res = matching idx (t :: toks) (length rows)) as <-.
  { apply SetFacts.sorted_ext;
      [done | apply SetFacts.sorted_filter, SetFacts.sorted_seq |].
    intros i. unfold matching. rewrite list_elem_of_filter, elem_of_seq, Hres.
    split; [|tauto]. intros Hi. split; [done|]. split; [lia|].
    cbn [in_every_set forallb] in Hi. apply andb_true_iff in Hi as [Hi _].
    destruct (idx !! t) as [set|] eqn:Ht; [|done].
    apply SetFacts.has_true in Hi. simpl.
    by apply (IsIndex.in_range rows idx Hidx t set). }
  destruct Hloop as [-> | [-> ->]]; done.
Qed.

(** Whatever the index, a blank query returns the rows as they are. *)
Lemma queryIndex_blank rows (idx : Index) query :
  Str.forallb Char.is_space query = true →
  queryIndex query rows idx = Ok (Some <$> rows).
Proof.
  intros Hq. unfold queryIndex. by rewrite TrimFacts.trim_blank.
Qed.

Module TokenFacts.

Lemma tokenize_tokens text : Forall is_token (tokenize text).
Proof.
  unfold tokenize, split_tokens, Str.split. apply Forall_forall. intros t.
  rewrite list_elem_of_filter. intros [Ht Hin]. split; [done|].
  pose proof (StrFacts.split_from_pieces lower_fixed Char.is_separator false
                _ (StrFacts.lower_is_fixed text)) as Hall.
  rewrite Forall_forall in Hall. by apply Hall.
Qed.

Lemma token_word t : is_token t → words Char.is_separator [t].
Proof.
  intros [Ht1 Ht2]. repeat constructor; [done|].
  apply (StrFacts.forallb_impl token_char); [|done].
  unfold token_char. intros c. rewrite andb_true_iff. tauto.
Qed.

Lemma tokens_words ts :
  Forall is_token ts → words Char.is_separator ts.
Proof.
  induction 1 as [|t ts Ht _ IH]; [constructor|].
  constructor; [|done]. by apply token_word, Forall_inv in Ht.
Qed.

Lemma token_lower t : is_token t → Str.toLowerCase t = t.
Proof.
  intros [_ Ht]. apply StrFacts.lower_fixed_map.
  apply (StrFacts.forallb_impl token_char); [|done].
  unfold token_char. intros c. rewrite andb_true_iff. tauto.
Qed.

Lemma token_no_space t :
  is_token t → Str.forallb (λ c, negb (Char.is_space c)) t = true.
Proof.
  intros [_ Ht]. apply (StrFacts.forallb_impl token_char); [|done].
  unfold token_char. intros c. rewrite andb_true_iff, !negb_true_iff.
  intros [_ Hc]. destruct (Char.is_space c) eqn:E; [|done].
  apply CharFacts.space_separator in E. congruence.
Qed.

Lemma join_lower ts :
  Forall is_token ts → Str.toLowerCase (Str.join " " ts) = Str.join " " ts.
Proof.
  induction 1 as [|t ts Ht Hts IH]; [done|].
  destruct ts as [|t' ts]; [by apply token_lower|].
  change (Str.join " " (t :: t' :: ts))
    with (t +:+ " " +:+ Str.join " " (t' :: ts)).
  pose proof (token_lower t Ht) as Ht'.
  unfold Str.toLowerCase in *. by rewrite !StrFacts.map_app, IH, Ht'.
Qed.

(** Splitting tokens that were joined by single spaces. *)
Lemma split_tokens_join ts :
  Forall is_token ts → split_tokens (Str.join " " ts) = ts.
Proof.
  intros Hts. unfold split_tokens. destruct (decide (ts = [])) as [->|Hne].
  { done. }
  rewrite StrFacts.split_join_words; [|done|by apply tokens_words|done].
  induction Hts as [|t ts [Ht _] _ IH]; [done|].
  rewrite filter_cons_True by done. f_equal.
  destruct ts; [done | by apply IH].
Qed.

End TokenFacts.

(** ** The match set *)

Module MatchFacts.

Lemma in_every_set_true (idx : Index) toks i :
  in_every_set idx toks i = true ↔
  ∀ t, t ∈ toks → ∃ s, idx !! t = Some s ∧ i ∈ s.
Proof.
  unfold in_every_set. rewrite forallb_forall. split.
  - intros H t Ht%list_elem_of_In. specialize (H t Ht).
    destruct (idx !! t) as [s|]; [|done].
    exists s. split; [done | by apply SetFacts.has_true].
  - intros H t Ht%list_elem_of_In. destruct (H t Ht) as (s & -> & Hi).
    by apply SetFacts.has_true.
Qed.

Lemma elem_of_matching (idx : Index) toks n i :
  i ∈ matching idx toks n ↔
  i < n ∧ ∀ t, t ∈ toks → ∃ s, idx !! t = Some s ∧ i ∈ s.
Proof.
  unfold matching.
  rewrite list_elem_of_filter, elem_of_seq, in_every_set_true. split.
  - intros [? [_ ?]]. split; [lia | done].
  - intros [? ?]. split; [done | lia].
Qed.

Lemma matching_sorted (idx : Index) toks n :
  StronglySorted lt (matching idx toks n).
Proof. apply SetFacts.sorted_filter, SetFacts.sorted_seq. Qed.

Lemma matching_nil (idx : Index) toks n :
  (∀ i, i ∉ matching idx toks n) → matching idx toks n = [].
Proof.
  intros H. destruct (matching idx toks n) as [|i l]; [done|].
  destruct (H i). by left.
Qed.

(** A token that is no key leaves nothing to match. *)
Lemma matching_absent (idx : Index) toks n t :
  t ∈ toks → idx !! t = None → matching idx toks n = [].
Proof.
  intros Ht Hnone. apply matching_nil. intros i [_ Hi]%elem_of_matching.
  destruct (Hi t Ht) as (s & Hs & _). congruence.
Qed.

(** Once the tokens read so far match nothing, nothing matches. *)
Lemma matching_prefix (idx : Index) pre suf n :
  matching idx pre n = [] → matching idx (pre ++ suf) n = [].
Proof.
  intros Hpre. apply matching_nil. intros i [Hn Hi]%elem_of_matching.
  assert (i ∈ matching idx pre n) as Hin.
  { apply elem_of_matching. split; [done|]. intros t Ht. apply Hi.
    apply elem_of_app. by left. }
  rewrite Hpre in Hin. by apply not_elem_of_nil in Hin.
Qed.

Lemma elem_of_indexed_tokens t r :
  t ∈ indexed_tokens r ↔
  t ∈ tokenize (default "" (Company.name r))
  ∨ t ∈ tokenize (default "" (Company.city r))
  ∨ t ∈ tokenize (default "" (Company.type r)).
Proof. unfold indexed_tokens. by rewrite !elem_of_app. Qed.

Lemma indexed_tokens_tokens r : Forall is_token (indexed_tokens r).
Proof.
  unfold indexed_tokens. rewrite !Forall_app.
  repeat split; apply TokenFacts.tokenize_tokens.
Qed.

(** A token that no row holds in an indexed field is no key. *)
Lemma not_key rows (idx : Index) t :
  is_index rows idx →
  (∀ r, r ∈ rows → t ∉ indexed_tokens r) → idx !! t = None.
Proof.
  intros Hidx Hno. destruct (idx !! t) as [s|] eqn:Hs; [|done].
  destruct (IsIndex.lookup_Some rows idx Hidx t s Hs) as [_ Hne].
  destruct s as [|i s]; [done|].
  assert (i ∈ i :: s) as Hi by by left.
  apply (IsIndex.member rows idx Hidx t _ i Hs) in Hi as (r & Hr & Ht).
  destruct (Hno r); [by eapply list_elem_of_lookup_2 | done].
Qed.

End MatchFacts.

(** The index is a function of the tokens of the indexed fields alone:
    the id, the address and the further properties of the rows have no
    part in it. *)
Lemma buildIndex_ext rows rows' :
  Forall2 (λ r r', indexed_tokens r = indexed_tokens r') rows rows' →
  buildIndex rows = buildIndex rows'.
Proof.
  intros Hrows.
  destruct (buildIndex_is_index rows) as (idx & -> & Hidx).
  destruct (buildIndex_is_index rows') as (idx' & -> & Hidx').
  f_equal. apply map_eq. intros t. rewrite Hidx, Hidx'. f_equal.
  clear idx idx' Hidx Hidx'.
  assert (∀ k, positions t k rows = positions t k rows') as Hpos; [|apply Hpos].
  induction Hrows as [|r r' rows rows' Hr _ IH]; intros k; [done|].
  cbn [positions]. by rewrite Hr, IH.
Qed.

Lemma buildIndex_ignores_other_fields rows rows' :
  Forall2 (λ r r', Company.name r = Company.name r'
                   ∧ Company.city r = Company.city r'
                   ∧ Company.type r = Company.type r') rows rows' →
  buildIndex rows = buildIndex rows'.
Proof.
  intros Hrows. apply buildIndex_ext. eapply Forall2_impl; [exact Hrows|].
  intros r r' (Hn & Hc & Ht). unfold indexed_tokens. by rewrite Hn, Hc, Ht.
Qed.

(** ** Queries made of tokens *)

Module QueryFacts.

Lemma tokens_space_words ts :
  Forall is_token ts → words Char.is_space ts.
Proof.
  induction 1 as [|t ts Ht _ IH]; [constructor|].
  constructor; [|done]. split; [apply Ht | by apply TokenFacts.token_no_space].
Qed.

(** Tokens joined by single spaces are a query that is its own normal
    form. *)
Lemma normalize_join ts :
  Forall is_token ts → normalize_query (Str.join " " ts) = Str.join " " ts.
Proof.
  intros Hts. unfold normalize_query.
  rewrite TrimFacts.trim_words by by apply tokens_space_words.
  by apply TokenFacts.join_lower.
Qed.

Lemma truthy_normalize_join t ts :
  Forall is_token (t :: ts) →
  Str.truthy (normalize_query (Str.join " " (t :: ts))) = true.
Proof.
  intros Hts. rewrite normalize_join by done.
  apply TrimFacts.truthy_join. by inversion_clear Hts as [|?? [? ?] _].
Qed.

(** ... and [queryIndex] splits it into these tokens. *)
Lemma query_tokens_join t ts :
  Forall is_token (t :: ts) → query_tokens (Str.join " " (t :: ts)) = t :: ts.
Proof.
  intros Hts. unfold query_tokens, split_spaces. rewrite normalize_join by done.
  apply StrFacts.split_join_words; [done | by apply tokens_space_words | done].
Qed.

(** The match set of a single token is its position set. *)
Lemma matching_single rows (idx : Index) t :
  is_index rows idx →
  matching idx [t] (length rows) = default [] (idx !! t).
Proof.
  intros Hidx. destruct (idx !! t) as [s|] eqn:Hs; simpl.
  - apply SetFacts.sorted_ext;
      [apply MatchFacts.matching_sorted | by apply (IsIndex.sorted rows idx Hidx t) |].
    intros i. rewrite MatchFacts.elem_of_matching. split.
    + intros [_ Hi]. destruct (Hi t) as (s' & Hs' & His); [by left|]. congruence.
    + intros Hi. split; [by apply (IsIndex.in_range rows idx Hidx t s)|].
      intros t' ->%list_elem_of_singleton. by exists s.
  - apply (MatchFacts.matching_absent _ _ _ t); [by left | done].
Qed.

Lemma queryIndex_absent rows (idx : Index) query t :
  is_index rows idx →
  Str.truthy (normalize_query query) = true →
  t ∈ query_tokens query → idx !! t = None →
  queryIndex query rows idx = Ok [].
Proof.
  intros Hidx Hq Ht Hnone. rewrite (queryIndex_matching rows idx query Hidx Hq).
  by rewrite (MatchFacts.matching_absent _ _ _ t).
Qed.

End QueryFacts.

(** ** Queries without punctuation *)

Module PlainFacts.

Lemma truthy_map f s : Str.truthy (Str.map f s) = Str.truthy s.
Proof. by destruct s. Qed.


Lemma trimStart_lower s :
  Str.trimStart (Str.toLowerCase s) = Str.toLowerCase (Str.trimStart s).
Proof.
  unfold Str.toLowerCase. induction s as [|c s IH]; simpl; [done|].
  rewrite CharFacts.lower_space. by destruct (Char.is_space c).
Qed.

Lemma trimEnd_lower s :
  Str.trimEnd (Str.toLowerCase s) = Str.toLowerCase (Str.trimEnd s).
Proof.
  unfold Str.toLowerCase. induction s as [|c s IH]; simpl; [done|].
  rewrite IH, CharFacts.lower_space.
  destruct (Str.trimEnd s); simpl; [|done]. by destruct (Char.is_space c).
Qed.

Lemma trim_lower s : Str.trim (Str.toLowerCase s) = Str.toLowerCase (Str.trim s).
Proof. unfold Str.trim. by rewrite trimStart_lower, trimEnd_lower. Qed.








Lemma trimEnd_idem s : Str.trimEnd (Str.trimEnd s) = Str.trimEnd s.
Proof.
  induction s as [|c s IH]; simpl; [done|].
  destruct (Str.trimEnd s) as [|d t] eqn:Ht.
  - destruct (Char.is_space c) eqn:Hc; simpl; [done|]. by rewrite Hc.
  - simpl in *. by rewrite IH.
Qed.

Lemma starts_word_trimStart s :
  Str.truthy (Str.trimStart s) = true → starts_word (Str.trimStart s) = true.
Proof.
  induction s as [|c s IH]; simpl; [done|].
  destruct (Char.is_space c) eqn:Hc; [done|]. simpl. by rewrite Hc.
Qed.

Lemma starts_word_trimEnd s :
  starts_word s = true → starts_word (Str.trimEnd s) = true.
Proof.
  destruct s as [|c s]; simpl; [done|]. intros Hc.
  destruct (Str.trimEnd s); [|done].
  apply negb_true_iff in Hc. rewrite Hc. simpl. by rewrite Hc.
Qed.

Lemma truthy_trimEnd s : Str.truthy (Str.trimEnd s) = true → Str.truthy s = true.
Proof. by destruct s. Qed.



Lemma filter_Forall (l : list string) :
  Forall (λ p, Str.truthy p = true) l →
  filter (λ p, Str.truthy p = true) l = l.
Proof.
  induction 1 as [|p l Hp _ IH]; [done|]. by rewrite filter_cons_True, IH.
Qed.


End PlainFacts.

(** ** The collection of a thousand and one rows *)

Module CapFacts.

Lemma length_rows : length cap_rows = 1001.
Proof. unfold cap_rows. by rewrite length_app, length_replicate. Qed.

Lemma lookup_last : cap_rows !! 1000 = Some cap_last.
Proof. unfold cap_rows. apply list_lookup_middle. by rewrite length_replicate. Qed.

Lemma lookup_first i r : cap_rows !! i = Some r → i < 1000 → r = cap_first.
Proof.
  unfold cap_rows. intros Hr Hi.
  rewrite lookup_app_l in Hr by by rewrite length_replicate.
  by apply lookup_replicate in Hr as [-> _].
Qed.

Lemma holds_a r : r ∈ cap_rows → "a" ∈ indexed_tokens r.
Proof.
  unfold cap_rows. rewrite elem_of_app, list_elem_of_singleton.
  intros [->%elem_of_replicate_inv | ->]; apply (bool_decide_unpack _); by vm_compute.
Qed.

Lemma first_lacks_b : "b" ∉ indexed_tokens cap_first.
Proof. apply (bool_decide_unpack _). by vm_compute. Qed.

Lemma last_holds_b : "b" ∈ indexed_tokens cap_last.
Proof. apply (bool_decide_unpack _). by vm_compute. Qed.

End CapFacts.

Lemma filter_all (P : nat → Prop) `{∀ x, Decision (P x)} (l : list nat) :
  (∀ x, x ∈ l → P x) → filter P l = l.
Proof.
  induction l as [|x l IH]; intros HP; [done|].
  rewrite filter_cons_True by (apply HP; by left).
  f_equal. apply IH. intros y Hy. apply HP. by right.
Qed.

(** * The claims *)

(** C1.  The tokens of a query are not those the tokenizer of the index
    builder makes of it: [queryIndex] splits at white space only, so the
    hyphenated query is one token, which is no key of any index, where
    [tokenize] makes two tokens of it.  The row named by the query is not
    found, though the same words separated by a space find it. *)
Theorem query_tokens_keep_punctuation :
  query_tokens "alpine-watch" = ["alpine-watch"]
  ∧ tokenize "alpine-watch" = ["alpine"; "watch"]
  ∧ hyphen_run "alpine-watch" = Ok []
  ∧ hyphen_run "alpine watch" = Ok (Some <$> hyphen_rows).
Proof. repeat split; vm_compute; reflexivity. Qed.

(** C2.  A query of punctuation alone has no token for [tokenize], yet
    [queryIndex] does not take it for an empty query: on every collection
    it looks the punctuation up as a token and returns no row. *)
Theorem punctuation_query_returns_nothing rows :
  tokenize "-" = []
  ∧ ∃ idx : Index, buildIndex rows = Ok idx ∧ queryIndex "-" rows idx = Ok [].
Proof.
  split; [reflexivity|].
  destruct (buildIndex_is_index rows) as (idx & Hbuild & Hidx).
  exists idx. split; [done|].
  apply (QueryFacts.queryIndex_absent rows idx "-" "-" Hidx);
    [reflexivity | by left |].
  apply (MatchFacts.not_key rows idx "-" Hidx). intros r _ Hin.
  pose proof (MatchFacts.indexed_tokens_tokens r) as Hall.
  rewrite Forall_forall in Hall. destruct (Hall "-" Hin) as [_ Hchars].
  vm_compute in Hchars. discriminate.
Qed.

(** C3.  For a row [r] at position [i] of the collection: token [t] is a key
    of the built index with [i] in its position set if and only if [t] is
    among the tokens of the name, the city or the type of [r], an absent
    field counting as the empty string. *)
Theorem buildIndex_posting_iff rows i r t :
  rows !! i = Some r →
  ∃ idx : Index,
    buildIndex rows = Ok idx
    ∧ ((∃ s, idx !! t = Some s ∧ i ∈ s) ↔
       t ∈ tokenize (default "" (Company.name r))
       ∨ t ∈ tokenize (default "" (Company.city r))
       ∨ t ∈ tokenize (default "" (Company.type r))).
Proof.
  intros Hr. destruct (buildIndex_is_index rows) as (idx & Hbuild & Hidx).
  exists idx. split; [done|]. rewrite <-MatchFacts.elem_of_indexed_tokens. split.
  - intros (s & Hs & Hi).
    apply (IsIndex.member rows idx Hidx t s i Hs) in Hi as (r' & Hr' & Ht).
    congruence.
  - intros Ht. by apply (IsIndex.key rows idx Hidx t i r).
Qed.

Lemma buildIndex_posting_iff_witness :
  Sample.records !! 2 = Some (Sample.row "Alpine Textiles" "Basel")
  ∧ ∃ idx : Index,
      buildIndex Sample.records = Ok idx
      ∧ ((∃ s, idx !! "basel" = Some s ∧ 2 ∈ s) ↔
         "basel" ∈ tokenize (default ""
                     (Company.name (Sample.row "Alpine Textiles" "Basel")))
         ∨ "basel" ∈ tokenize (default ""
                       (Company.city (Sample.row "Alpine Textiles" "Basel")))
         ∨ "basel" ∈ tokenize (default ""
                       (Company.type (Sample.row "Alpine Textiles" "Basel")))).
Proof.
  split; [reflexivity|].
  apply (buildIndex_posting_iff Sample.records 2
           (Sample.row "Alpine Textiles" "Basel") "basel").
  reflexivity.
Defined.

(** C4.  On the index built from the collection, a query that is not blank
    returns the rows at the positions (the first thousand of them) that lie
    in the position set of every token of the query; it returns nothing when
    a token of the query is no key of the index, and when the tokens read
    so far have no position in common. *)
Theorem queryIndex_conjunction rows query :
  Str.truthy (normalize_query query) = true →
  ∃ idx : Index,
    buildIndex rows = Ok idx
    ∧ queryIndex query rows idx
      = Ok ((λ i, rows !! i) <$>
              take 1000 (matching idx (query_tokens query) (length rows)))
    ∧ (∀ i, i ∈ matching idx (query_tokens query) (length rows) ↔
            ∀ t, t ∈ query_tokens query → ∃ s, idx !! t = Some s ∧ i ∈ s)
    ∧ (∀ t, t ∈ query_tokens query → idx !! t = None →
            queryIndex query rows idx = Ok [])
    ∧ (∀ pre suf, query_tokens query = pre ++ suf →
            matching idx pre (length rows) = [] →
            queryIndex query rows idx = Ok []).
Proof.
  intros Hq. destruct (buildIndex_is_index rows) as (idx & Hbuild & Hidx).
  exists idx. split; [done|].
  pose proof (queryIndex_matching rows idx query Hidx Hq) as Hrun.
  split; [done|]. split; [|split].
  - intros i. rewrite MatchFacts.elem_of_matching. split; [tauto|].
    intros Hi. split; [|done].
    pose proof (query_tokens_nonempty query) as Hne.
    destruct (query_tokens query) as [|t toks]; [done|].
    destruct (Hi t) as (s & Hs & His); [by left|].
    by apply (IsIndex.in_range rows idx Hidx t s).
  - intros t Ht Hnone. by rewrite Hrun, (MatchFacts.matching_absent _ _ _ t).
  - intros pre suf Htoks Hpre. by rewrite Hrun, Htoks, MatchFacts.matching_prefix.
Qed.

Lemma queryIndex_conjunction_witness :
  Str.truthy (normalize_query "Alpine  ZURICH ") = true
  ∧ ∃ idx : Index,
      buildIndex Sample.records = Ok idx
      ∧ queryIndex "Alpine  ZURICH " Sample.records idx
        = Ok ((λ i, Sample.records !! i) <$>
                take 1000 (matching idx (query_tokens "Alpine  ZURICH ")
                             (length Sample.records)))
      ∧ (∀ i, i ∈ matching idx (query_tokens "Alpine  ZURICH ")
                    (length Sample.records) ↔
              ∀ t, t ∈ query_tokens "Alpine  ZURICH " →
                   ∃ s, idx !! t = Some s ∧ i ∈ s)
      ∧ (∀ t, t ∈ query_tokens "Alpine  ZURICH " → idx !! t = None →
              queryIndex "Alpine  ZURICH " Sample.records idx = Ok [])
      ∧ (∀ pre suf, query_tokens "Alpine  ZURICH " = pre ++ suf →
              matching idx pre (length Sample.records) = [] →
              queryIndex "Alpine  ZURICH " Sample.records idx = Ok []).
Proof.
  split; [reflexivity|].
  apply (queryIndex_conjunction Sample.records "Alpine  ZURICH ").
  reflexivity.
Defined.

(** C5.  On the index built from the collection, the rows a non-blank query
    returns are those at a list of positions that is strictly ascending, at
    most a thousand long, and the first thousand of the match set taken in
    ascending order. *)
Theorem queryIndex_ascending_capped rows query :
  Str.truthy (normalize_query query) = true →
  ∃ (idx : Index) (ps : list nat) out,
    buildIndex rows = Ok idx
    ∧ queryIndex query rows idx = Ok out
    ∧ out = (λ i, rows !! i) <$> ps
    ∧ StronglySorted lt ps
    ∧ length out ≤ 1000
    ∧ StronglySorted lt (matching idx (query_tokens query) (length rows))
    ∧ ps = take 1000 (matching idx (query_tokens query) (length rows)).
Proof.
  intros Hq. destruct (buildIndex_is_index rows) as (idx & Hbuild & Hidx).
  pose proof (MatchFacts.matching_sorted idx (query_tokens query) (length rows))
    as Hsorted.
  eexists idx, _, _. split; [done|].
  split; [by apply queryIndex_matching|]. split; [done|]. split; [|split; [|done]].
  - rewrite <-(take_drop 1000 (matching _ _ _)) in Hsorted.
    by apply StronglySorted_app_1_l in Hsorted.
  - rewrite length_fmap, length_take. lia.
Qed.

Lemma queryIndex_ascending_capped_witness :
  Str.truthy (normalize_query "alpine") = true
  ∧ ∃ (idx : Index) (ps : list nat) out,
      buildIndex Sample.records = Ok idx
      ∧ queryIndex "alpine" Sample.records idx = Ok out
      ∧ out = (λ i, Sample.records !! i) <$> ps
      ∧ StronglySorted lt ps
      ∧ length out ≤ 1000
      ∧ StronglySorted lt
          (matching idx (query_tokens "alpine") (length Sample.records))
      ∧ ps = take 1000
               (matching idx (query_tokens "alpine") (length Sample.records)).
Proof.
  split; [reflexivity|].
  apply (queryIndex_ascending_capped Sample.records "alpine").
  reflexivity.
Defined.

(** C6, as stated, fails where more than a thousand rows hold a token: the
    last row of [cap_rows] is returned for the two tokens [a b], and is cut
    off from what is returned for [a] alone. *)
Lemma two_token_subset_fails :
  is_token "a" ∧ is_token "b"
  ∧ returned_by ("a" +:+ " " +:+ "b") cap_rows (Some cap_last)
  ∧ ¬ returned_by "a" cap_rows (Some cap_last).
Proof.
  split; [by split|]. split; [by split|].
  destruct (buildIndex_is_index cap_rows) as (idx & Hbuild & Hidx).
  split.
  - exists idx. eexists. split; [done|].
    split; [by apply queryIndex_matching|].
    change (query_tokens ("a" +:+ " " +:+ "b")) with ["a"; "b"].
    assert (matching idx ["a"; "b"] (length cap_rows) = [1000]) as ->.
    { apply SetFacts.sorted_ext;
        [apply MatchFacts.matching_sorted | repeat constructor |].
      intros i. rewrite MatchFacts.elem_of_matching, list_elem_of_singleton.
      rewrite CapFacts.length_rows. split.
      - intros [Hi Hall]. destruct (Hall "b") as (s & Hs & His).
        { right. by left. }
        apply (IsIndex.member _ _ Hidx "b" s i Hs) in His as (r & Hr & Hb).
        destruct (decide (i < 1000)) as [Hlt|Hge]; [|lia].
        apply CapFacts.lookup_first in Hr as ->; [|done].
        by destruct CapFacts.first_lacks_b.
      - intros ->. split; [lia|]. intros t Ht.
        apply (IsIndex.key _ _ Hidx t 1000 cap_last CapFacts.lookup_last).
        apply elem_of_cons in Ht as [->|Ht].
        + apply CapFacts.holds_a. by eapply list_elem_of_lookup_2, CapFacts.lookup_last.
        + apply list_elem_of_singleton in Ht as ->. apply CapFacts.last_holds_b. }
    cbn [take fmap list_fmap]. rewrite CapFacts.lookup_last. by left.
  - intros (idx' & out & Hbuild' & Hrun & Hin).
    rewrite Hbuild in Hbuild'. injection Hbuild' as <-.
    rewrite (queryIndex_matching _ _ "a" Hidx) in Hrun by reflexivity.
    injection Hrun as <-.
    change (query_tokens "a") with ["a"] in Hin.
    rewrite ?CapFacts.length_rows in Hin.
    assert (matching idx ["a"] 1001 = seq 0 1001) as Hall.
    { apply filter_all. intros i Hi%elem_of_seq.
      apply MatchFacts.in_every_set_true. intros t ->%list_elem_of_singleton.
      destruct (lookup_lt_is_Some_2 cap_rows i) as [r Hr].
      { rewrite CapFacts.length_rows. lia. }
      apply (IsIndex.key _ _ Hidx "a" i r Hr).
      apply CapFacts.holds_a. by eapply list_elem_of_lookup_2. }
    rewrite Hall, take_seq in Hin.
    apply list_elem_of_fmap in Hin as (i & Hi & Hlt%elem_of_seq).
    symmetry in Hi. apply CapFacts.lookup_first in Hi; [|lia].
    discriminate Hi.
Qed.

(** C6, amended.  For tokens [t1] and [t2], every entry returned for the
    query [t1 t2] is the row at a position that lies in the position sets
    of both tokens; it is also returned for [t1] alone when at most a
    thousand rows hold [t1], and for [t2] alone when at most a thousand
    rows hold [t2]. *)
Theorem two_token_query_subset rows t1 t2 :
  is_token t1 → is_token t2 →
  ∃ (idx : Index) out12 out1 out2,
    buildIndex rows = Ok idx
    ∧ queryIndex (t1 +:+ " " +:+ t2) rows idx = Ok out12
    ∧ queryIndex t1 rows idx = Ok out1
    ∧ queryIndex t2 rows idx = Ok out2
    ∧ (∀ x, x ∈ out12 →
         ∃ i s1 s2, x = rows !! i
                    ∧ idx !! t1 = Some s1 ∧ i ∈ s1
                    ∧ idx !! t2 = Some s2 ∧ i ∈ s2)
    ∧ ((∀ s, idx !! t1 = Some s → length s ≤ 1000) →
       ∀ x, x ∈ out12 → x ∈ out1)
    ∧ ((∀ s, idx !! t2 = Some s → length s ≤ 1000) →
       ∀ x, x ∈ out12 → x ∈ out2).
Proof.
  intros Ht1 Ht2. destruct (buildIndex_is_index rows) as (idx & Hbuild & Hidx).
  assert (Forall is_token [t1]) as H1 by (by apply Forall_singleton).
  assert (Forall is_token [t2]) as H2 by (by apply Forall_singleton).
  assert (Forall is_token [t1; t2]) as H12 by (by apply Forall_cons_2).
  pose proof (queryIndex_matching rows idx _ Hidx
                (QueryFacts.truthy_normalize_join _ _ H12)) as Hrun12.
  pose proof (queryIndex_matching rows idx _ Hidx
                (QueryFacts.truthy_normalize_join _ _ H1)) as Hrun1.
  pose proof (queryIndex_matching rows idx _ Hidx
                (QueryFacts.truthy_normalize_join _ _ H2)) as Hrun2.
  rewrite QueryFacts.query_tokens_join in Hrun12, Hrun1, Hrun2 by done.
  change (Str.join " " [t1; t2]) with (t1 +:+ " " +:+ t2) in Hrun12.
  change (Str.join " " [t1]) with t1 in Hrun1.
  change (Str.join " " [t2]) with t2 in Hrun2.
  eexists idx, _, _, _. split; [done|]. do 3 (split; [done|]).
  assert (∀ x, x ∈ (λ i, rows !! i) <$>
                     take 1000 (matching idx [t1; t2] (length rows)) →
               ∃ i, x = rows !! i ∧ i ∈ matching idx [t1; t2] (length rows))
    as Hout12.
  { intros x (i & -> & Hi)%list_elem_of_fmap. exists i.
    split; [done | by apply subseteq_take in Hi]. }
  assert (∀ t, t ∈ [t1; t2] →
               (∀ s, idx !! t = Some s → length s ≤ 1000) →
               ∀ x, x ∈ (λ i, rows !! i) <$>
                      take 1000 (matching idx [t1; t2] (length rows)) →
                    x ∈ (λ i, rows !! i) <$>
                      take 1000 (matching idx [t] (length rows))) as Hsub.
  { intros t Ht Hsmall x (i & -> & [Hn Hi]%MatchFacts.elem_of_matching)%Hout12.
    apply (list_elem_of_fmap_2 (λ i, rows !! i)). rewrite take_ge.
    - apply MatchFacts.elem_of_matching. split; [done|].
      intros t' ->%list_elem_of_singleton. by apply Hi.
    - rewrite (QueryFacts.matching_single rows idx t Hidx).
      destruct (idx !! t) as [s|]; simpl; [by apply Hsmall | lia]. }
  split; [|split].
  - intros x (i & -> & [_ Hi]%MatchFacts.elem_of_matching)%Hout12.
    destruct (Hi t1) as (s1 & Hs1 & Hi1); [by left|].
    destruct (Hi t2) as (s2 & Hs2 & Hi2); [right; by left|].
    by exists i, s1, s2.
  - apply Hsub. by left.
  - apply Hsub. right. by left.
Qed.

Lemma two_token_query_subset_witness :
  is_token "alpine" ∧ is_token "zurich"
  ∧ ∃ (idx : Index) out12 out1 out2,
      buildIndex Sample.records = Ok idx
      ∧ queryIndex ("alpine" +:+ " " +:+ "zurich") Sample.records idx = Ok out12
      ∧ queryIndex "alpine" Sample.records idx = Ok out1
      ∧ queryIndex "zurich" Sample.records idx = Ok out2
      ∧ (∀ x, x ∈ out12 →
           ∃ i s1 s2, x = Sample.records !! i
                      ∧ idx !! "alpine" = Some s1 ∧ i ∈ s1
                      ∧ idx !! "zurich" = Some s2 ∧ i ∈ s2)
      ∧ ((∀ s, idx !! "alpine" = Some s → length s ≤ 1000) →
         ∀ x, x ∈ out12 → x ∈ out1)
      ∧ ((∀ s, idx !! "zurich" = Some s → length s ≤ 1000) →
         ∀ x, x ∈ out12 → x ∈ out2).
Proof.
  assert (is_token "alpine") as H1 by (split; reflexivity).
  assert (is_token "zurich") as H2 by (split; reflexivity).
  split; [exact H1|]. split; [exact H2|].
  apply (two_token_query_subset Sample.records "alpine" "zurich" H1 H2).
Defined.

(** C7.  A token that no row holds in its name, city or type (whatever the
    address and the other fields hold) is no key of the built index, and a
    non-blank query that has it among its tokens returns no row. *)
Theorem unindexed_token_never_matches rows t :
  (∀ r, r ∈ rows → t ∉ indexed_tokens r) →
  ∃ idx : Index,
    buildIndex rows = Ok idx
    ∧ idx !! t = None
    ∧ ∀ query, Str.truthy (normalize_query query) = true →
               t ∈ query_tokens query →
               queryIndex query rows idx = Ok [].
Proof.
  intros Hno. destruct (buildIndex_is_index rows) as (idx & Hbuild & Hidx).
  pose proof (MatchFacts.not_key rows idx t Hidx Hno) as Hnone.
  exists idx. split; [done|]. split; [done|]. intros query Hq Ht.
  rewrite (queryIndex_matching rows idx query Hidx Hq).
  by rewrite (MatchFacts.matching_absent _ _ _ t).
Qed.

Lemma unindexed_token_never_matches_witness :
  (∀ r, r ∈ address_rows → "bahnhofstrasse" ∉ indexed_tokens r)
  ∧ ∃ idx : Index,
      buildIndex address_rows = Ok idx
      ∧ idx !! "bahnhofstrasse" = None
      ∧ ∀ query, Str.truthy (normalize_query query) = true →
                 "bahnhofstrasse" ∈ query_tokens query →
                 queryIndex query address_rows idx = Ok [].
Proof.
  assert (∀ r, r ∈ address_rows → "bahnhofstrasse" ∉ indexed_tokens r) as Hno.
  { intros r Hr. apply list_elem_of_singleton in Hr. rewrite Hr.
    apply (bool_decide_unpack _). vm_compute. exact I. }
  split; [exact Hno|].
  apply (unindexed_token_never_matches address_rows "bahnhofstrasse" Hno).
Defined.

(** C8.  Tokenizing the tokens of a string, joined by single spaces, gives
    these tokens again: [tokenize(tokenize(x).join(" ")) = tokenize(x)]. *)
Theorem tokenize_join_tokenize x :
  tokenize (Str.join " " (tokenize x)) = tokenize x.
Proof.
  pose proof (TokenFacts.tokenize_tokens x) as Hts.
  unfold tokenize at 1. rewrite TokenFacts.join_lower by done.
  by apply TokenFacts.split_tokens_join.
Qed.

(** C9.  [buildIndex] and [queryIndex] never throw: every collection has an
    index, the index of the empty collection and of a row without name,
    city and type is empty, an absent field is indexed as the empty string
    is, and every query, on every collection and every index, returns a
    list. *)
Theorem buildIndex_queryIndex_total :
  (∀ rows, ∃ idx : Index, buildIndex rows = Ok idx)
  ∧ buildIndex [] = Ok ∅
  ∧ (∀ id address extra,
       buildIndex [Company.mk id None None None address extra] = Ok ∅)
  ∧ (∀ rows, buildIndex (fill_absent <$> rows) = buildIndex rows)
  ∧ (∀ query rows (idx : Index), ∃ out, queryIndex query rows idx = Ok out).
Proof.
  split; [|split; [|split; [|split]]].
  - intros rows. destruct (buildIndex_is_index rows) as (idx & Hbuild & _).
    by exists idx.
  - reflexivity.
  - reflexivity.
  - intros rows. apply buildIndex_ext, Forall2_fmap_l, Forall_Forall2_diag.
    apply Forall_forall. intros r _. reflexivity.
  - intros query rows idx. unfold queryIndex.
    destruct (negb _); [by eexists|].
    destruct (intersect_loop _ _ _) as [out|current] eqn:Hloop; [by eexists|].
    destruct (LoopFacts.loop_finished _ _ _ _ Hloop) as [cur ->].
    { left. apply StrFacts.split_from_nonempty. }
    by eexists.
Qed.

(** C10.  Every position in a position set of the built index is below the
    length of the collection; so each entry that a query returns on this
    index is a row of the collection, never [undefined]. *)
Theorem index_positions_in_range rows :
  ∃ idx : Index,
    buildIndex rows = Ok idx
    ∧ (∀ t s i, idx !! t = Some s → i ∈ s → i < length rows)
    ∧ ∀ query, ∃ out,
        queryIndex query rows idx = Ok out
        ∧ ∀ x, x ∈ out → ∃ r, x = Some r ∧ r ∈ rows.
Proof.
  destruct (buildIndex_is_index rows) as (idx & Hbuild & Hidx).
  exists idx. split; [done|]. split.
  { intros t s i. apply (IsIndex.in_range rows idx Hidx). }
  intros query. destruct (Str.truthy (normalize_query query)) eqn:Hq.
  - eexists. split; [by apply queryIndex_matching|].
    intros x (i & -> & Hi)%list_elem_of_fmap.
    apply subseteq_take, MatchFacts.elem_of_matching in Hi as [Hi _].
    apply lookup_lt_is_Some in Hi as [r Hr]. exists r.
    split; [done | by eapply list_elem_of_lookup_2].
  - exists (Some <$> rows). split.
    + unfold queryIndex. fold (normalize_query query). by rewrite Hq.
    + intros x (r & -> & Hr)%list_elem_of_fmap. by exists r.
Qed.

(** * Further properties of the index and of query resolution *)

Module EngineFacts.

(** In an ascending list of positions, a position stands no later than at
    its own rank. *)
Lemma sorted_lookup_ge (l : list nat) : ∀ m k i,
  StronglySorted lt l → (∀ x, x ∈ l → m ≤ x) → l !! k = Some i → m + k ≤ i.
Proof.
  induction l as [|x l IH]; intros m k i Hl Hm Hk; [done|].
  apply StronglySorted_cons in Hl as [Hx Hl].
  assert (m ≤ x) as Hmx by (apply Hm; by left).
  destruct k as [|k]; simpl in Hk.
  { injection Hk as <-. lia. }
  rewrite Forall_forall in Hx.
  assert (S m + k ≤ i); [|lia].
  apply IH; [done | | done]. intros y Hy. specialize (Hx y Hy). lia.
Qed.

Lemma sorted_lookup_le (l : list nat) k i :
  StronglySorted lt l → l !! k = Some i → k ≤ i.
Proof.
  intros Hl Hk. apply (sorted_lookup_ge l 0 k i Hl); [|done]. intros; lia.
Qed.

Lemma sorted_take_below (l : list nat) n i :
  StronglySorted lt l → i ∈ l → i < n → i ∈ take n l.
Proof.
  intros Hl [k Hk]%list_elem_of_lookup Hi. apply elem_of_take.
  exists k. split; [done|]. pose proof (sorted_lookup_le l k i Hl Hk). lia.
Qed.

Lemma filter_ext_in (P Q : nat → Prop) `{∀ x, Decision (P x)}
    `{∀ x, Decision (Q x)} (l : list nat) :
  (∀ x, x ∈ l → P x ↔ Q x) → filter P l = filter Q l.
Proof.
  induction l as [|x l IH]; intros Hl; [done|].
  rewrite !filter_cons.
  assert (P x ↔ Q x) as Hx by (apply Hl; by left).
  rewrite IH by (intros y Hy; apply Hl; by right).
  destruct (decide (P x)), (decide (Q x)); tauto || done.
Qed.

(** The match set depends on the tokens as a set. *)
Lemma matching_same_tokens (idx : Index) toks toks' n :
  (∀ t, t ∈ toks ↔ t ∈ toks') → matching idx toks n = matching idx toks' n.
Proof.
  intros Hsame. unfold matching. apply list_filter_iff. intros i.
  rewrite !MatchFacts.in_every_set_true. split; intros Hi t Ht; apply Hi, Hsame, Ht.
Qed.

(** A position of [rows] matches on the index of [rows] exactly when its
    row holds every token. *)
Lemma in_every_set_row rows (idx : Index) toks i r :
  is_index rows idx → rows !! i = Some r →
  in_every_set idx toks i = true ↔ ∀ t, t ∈ toks → t ∈ indexed_tokens r.
Proof.
  intros Hidx Hr. rewrite MatchFacts.in_every_set_true. split.
  - intros Hi t Ht. destruct (Hi t Ht) as (s & Hs & His).
    apply (IsIndex.member rows idx Hidx t s i Hs) in His as (r' & Hr' & Hin).
    congruence.
  - intros Hi t Ht. apply (IsIndex.key rows idx Hidx t i r Hr). by apply Hi.
Qed.

(** The rows a non-blank query returns hold every token of the query. *)
Lemma queryIndex_sound rows (idx : Index) query out :
  is_index rows idx → Str.truthy (normalize_query query) = true →
  queryIndex query rows idx = Ok out →
  ∀ x, x ∈ out →
    ∃ i r, x = Some r ∧ rows !! i = Some r
           ∧ ∀ t, t ∈ query_tokens query → t ∈ indexed_tokens r.
Proof.
  intros Hidx Hq Hrun x Hx.
  rewrite (queryIndex_matching rows idx query Hidx Hq) in Hrun.
  injection Hrun as <-. apply list_elem_of_fmap in Hx as (i & -> & Hi).
  apply subseteq_take in Hi. unfold matching in Hi.
  apply list_elem_of_filter in Hi as [Hall Hi%elem_of_seq].
  destruct (lookup_lt_is_Some_2 rows i) as [r Hr]; [lia|].
  exists i, r. split; [done|]. split; [done|].
  by apply (in_every_set_row rows idx _ i r Hidx Hr).
Qed.

(** A row among the first thousand that holds every token of the query is
    returned. *)
Lemma queryIndex_complete rows (idx : Index) query i r :
  is_index rows idx → Str.truthy (normalize_query query) = true →
  rows !! i = Some r → i < 1000 →
  (∀ t, t ∈ query_tokens query → t ∈ indexed_tokens r) →
  ∃ out, queryIndex query rows idx = Ok out ∧ Some r ∈ out.
Proof.
  intros Hidx Hq Hr Hi Hall. eexists. split; [by apply queryIndex_matching|].
  apply list_elem_of_fmap. exists i. split; [done|].
  apply sorted_take_below; [apply MatchFacts.matching_sorted | | done].
  unfold matching. apply list_elem_of_filter. split.
  - by apply (in_every_set_row rows idx _ i r Hidx Hr).
  - apply elem_of_seq. apply lookup_lt_Some in Hr. lia.
Qed.

Lemma trimStart_fixed s :
  starts_word s = true → Str.trimStart s = s.
Proof. destruct s as [|c s]; simpl; [done|]. by intros ->%negb_true_iff. Qed.

Lemma trimEnd_trimStart s :
  Str.trimStart (Str.trimEnd (Str.trimStart s)) = Str.trimEnd (Str.trimStart s).
Proof.
  destruct (Str.truthy (Str.trimEnd (Str.trimStart s))) eqn:E.
  - apply trimStart_fixed, PlainFacts.starts_word_trimEnd,
      PlainFacts.starts_word_trimStart. by apply PlainFacts.truthy_trimEnd.
  - by destruct (Str.trimEnd (Str.trimStart s)).
Qed.

Lemma trim_idem s : Str.trim (Str.trim s) = Str.trim s.
Proof.
  unfold Str.trim. by rewrite trimEnd_trimStart, PlainFacts.trimEnd_idem.
Qed.

Lemma normalize_query_lower query :
  normalize_query query = Str.trim (Str.toLowerCase query).
Proof. unfold normalize_query. by rewrite PlainFacts.trim_lower. Qed.

(** [queryIndex] reads the query through [normalize_query] alone. *)
Lemma queryIndex_normalize rows (idx : Index) q1 q2 :
  normalize_query q1 = normalize_query q2 →
  queryIndex q1 rows idx = queryIndex q2 rows idx.
Proof.
  intros Hq. unfold queryIndex. fold (normalize_query q1) (normalize_query q2).
  by rewrite Hq.
Qed.

Lemma positions_app t rows more : ∀ k,
  positions t k (rows ++ more)
  = positions t k rows ++ positions t (k + length rows) more.
Proof.
  induction rows as [|r rows IH]; intros k; simpl.
  { by rewrite Nat.add_0_r. }
  rewrite IH, <-app_assoc. do 3 f_equal. lia.
Qed.

End EngineFacts.

(** X1.  Every key of the built index is a token (non-empty, of lower-cased
    letters and digits only), and its position set is non-empty and strictly
    ascending, so without repetition. *)
Theorem index_keys_are_tokens rows :
  ∃ idx : Index,
    buildIndex rows = Ok idx
    ∧ ∀ t s, idx !! t = Some s → is_token t ∧ s ≠ [] ∧ StronglySorted lt s.
Proof.
  destruct (buildIndex_is_index rows) as (idx & Hbuild & Hidx).
  exists idx. split; [done|]. intros t s Hs.
  destruct (IsIndex.lookup_Some rows idx Hidx t s Hs) as [_ Hne].
  split; [|split; [done | by apply (IsIndex.sorted rows idx Hidx t)]].
  destruct s as [|i s]; [done|].
  assert (i ∈ i :: s) as Hi by by left.
  apply (IsIndex.member rows idx Hidx t _ i Hs) in Hi as (r & _ & Ht).
  pose proof (MatchFacts.indexed_tokens_tokens r) as Hall.
  rewrite Forall_forall in Hall. by apply Hall.
Qed.

(** X2.  On the index built from the collection, no query returns more
    entries than the collection has rows: the "Matches" count never exceeds
    the "Loaded" count. *)
Theorem matches_at_most_loaded rows query :
  ∃ (idx : Index) out,
    buildIndex rows = Ok idx
    ∧ queryIndex query rows idx = Ok out
    ∧ length out ≤ length rows.
Proof.
  destruct (buildIndex_is_index rows) as (idx & Hbuild & Hidx).
  destruct (Str.truthy (normalize_query query)) eqn:Hq.
  - eexists idx, _. split; [done|].
    split; [by apply queryIndex_matching|].
    rewrite length_fmap, length_take. unfold matching.
    pose proof (length_filter (λ i, in_every_set idx (query_tokens query) i = true)
                  (seq 0 (length rows))) as Hlen.
    rewrite length_seq in Hlen. lia.
  - exists idx, (Some <$> rows). split; [done|]. split.
    + unfold queryIndex. fold (normalize_query query). by rewrite Hq.
    + by rewrite length_fmap.
Qed.

(** X3.  [queryIndex] ignores the case of the letters of the query: two
    queries with the same lower-case form return the same, whatever the
    rows and the index. *)
Theorem query_ignores_case rows (idx : Index) q1 q2 :
  Str.toLowerCase q1 = Str.toLowerCase q2 →
  queryIndex q1 rows idx = queryIndex q2 rows idx.
Proof.
  intros Hq. apply EngineFacts.queryIndex_normalize.
  by rewrite !EngineFacts.normalize_query_lower, Hq.
Qed.

Lemma query_ignores_case_witness :
  Str.toLowerCase "ALPINE Watch" = Str.toLowerCase "alpine WATCH"
  ∧ queryIndex "ALPINE Watch" Sample.records ∅
    = queryIndex "alpine WATCH" Sample.records ∅.
Proof.
  split; [reflexivity|].
  apply (query_ignores_case Sample.records ∅ "ALPINE Watch" "alpine WATCH").
  reflexivity.
Defined.

(** X4.  On the index built from the collection, the order and the
    repetition of the tokens of a query do not matter: two non-blank queries
    with the same set of tokens return the same rows in the same order. *)
Theorem query_ignores_token_order rows q1 q2 :
  Str.truthy (normalize_query q1) = true →
  Str.truthy (normalize_query q2) = true →
  (∀ t, t ∈ query_tokens q1 ↔ t ∈ query_tokens q2) →
  ∃ idx : Index,
    buildIndex rows = Ok idx
    ∧ queryIndex q1 rows idx = queryIndex q2 rows idx.
Proof.
  intros Hq1 Hq2 Hsame.
  destruct (buildIndex_is_index rows) as (idx & Hbuild & Hidx).
  exists idx. split; [done|].
  rewrite (queryIndex_matching rows idx q1 Hidx Hq1).
  rewrite (queryIndex_matching rows idx q2 Hidx Hq2).
  by rewrite (EngineFacts.matching_same_tokens idx _ _ _ Hsame).
Qed.

Lemma query_ignores_token_order_witness :
  Str.truthy (normalize_query "alpine zurich") = true
  ∧ Str.truthy (normalize_query "zurich alpine zurich") = true
  ∧ (∀ t, t ∈ query_tokens "alpine zurich"
          ↔ t ∈ query_tokens "zurich alpine zurich")
  ∧ ∃ idx : Index,
      buildIndex Sample.records = Ok idx
      ∧ queryIndex "alpine zurich" Sample.records idx
        = queryIndex "zurich alpine zurich" Sample.records idx.
Proof.
  assert (∀ t, t ∈ query_tokens "alpine zurich"
               ↔ t ∈ query_tokens "zurich alpine zurich") as Hsame.
  { intros t. change (query_tokens "alpine zurich") with ["alpine"; "zurich"].
    change (query_tokens "zurich alpine zurich")
      with ["zurich"; "alpine"; "zurich"].
    rewrite !elem_of_cons, !elem_of_nil. tauto. }
  split; [reflexivity|]. split; [reflexivity|]. split; [exact Hsame|].
  apply (query_ignores_token_order Sample.records "alpine zurich"
           "zurich alpine zurich"); [reflexivity | reflexivity | exact Hsame].
Defined.

(** X5.  [buildIndex] ignores the case of the letters of the indexed
    fields, and takes an absent field for the empty string: collections
    whose rows agree, in this sense, on name, city and type have the same
    index. *)
Theorem index_ignores_case rows rows' :
  Forall2 (λ r r',
    Str.toLowerCase (default "" (Company.name r))
    = Str.toLowerCase (default "" (Company.name r'))
    ∧ Str.toLowerCase (default "" (Company.city r))
      = Str.toLowerCase (default "" (Company.city r'))
    ∧ Str.toLowerCase (default "" (Company.type r))
      = Str.toLowerCase (default "" (Company.type r'))) rows rows' →
  buildIndex rows = buildIndex rows'.
Proof.
  intros Hrows. apply buildIndex_ext. eapply Forall2_impl; [exact Hrows|].
  intros r r' (Hn & Hc & Ht). unfold indexed_tokens, tokenize.
  by rewrite Hn, Hc, Ht.
Qed.

Lemma index_ignores_case_witness :
  Forall2 (λ r r',
    Str.toLowerCase (default "" (Company.name r))
    = Str.toLowerCase (default "" (Company.name r'))
    ∧ Str.toLowerCase (default "" (Company.city r))
      = Str.toLowerCase (default "" (Company.city r'))
    ∧ Str.toLowerCase (default "" (Company.type r))
      = Str.toLowerCase (default "" (Company.type r')))
    [Sample.row "Alpine Watch AG" "Zurich"]
    [Company.mk "7" (Some "ALPINE watch ag") (Some "ZURICH") (Some "") None ∅]
  ∧ buildIndex [Sample.row "Alpine Watch AG" "Zurich"]
    = buildIndex
        [Company.mk "7" (Some "ALPINE watch ag") (Some "ZURICH") (Some "") None ∅].
Proof.
  assert (Forall2 (λ r r',
    Str.toLowerCase (default "" (Company.name r))
    = Str.toLowerCase (default "" (Company.name r'))
    ∧ Str.toLowerCase (default "" (Company.city r))
      = Str.toLowerCase (default "" (Company.city r'))
    ∧ Str.toLowerCase (default "" (Company.type r))
      = Str.toLowerCase (default "" (Company.type r')))
    [Sample.row "Alpine Watch AG" "Zurich"]
    [Company.mk "7" (Some "ALPINE watch ag") (Some "ZURICH") (Some "") None ∅])
    as Hrows.
  { constructor; [|constructor].
    split; [reflexivity|]. split; reflexivity. }
  split; [exact Hrows|].
  apply (index_ignores_case _ _ Hrows).
Defined.

(** X6.  Completeness within the cap: on the index built from the
    collection, a row at one of the first thousand positions that holds
    every token of a non-blank query in its name, city or type is among the
    rows the query returns. *)
Theorem row_found_by_its_tokens rows i r query :
  rows !! i = Some r → i < 1000 →
  Str.truthy (normalize_query query) = true →
  (∀ t, t ∈ query_tokens query → t ∈ indexed_tokens r) →
  ∃ (idx : Index) out,
    buildIndex rows = Ok idx
    ∧ queryIndex query rows idx = Ok out
    ∧ Some r ∈ out.
Proof.
  intros Hr Hi Hq Hall.
  destruct (buildIndex_is_index rows) as (idx & Hbuild & Hidx).
  destruct (EngineFacts.queryIndex_complete rows idx query i r Hidx Hq Hr Hi Hall)
    as (out & Hrun & Hin).
  by exists idx, out.
Qed.

Lemma row_found_by_its_tokens_witness :
  Sample.records !! 2 = Some (Sample.row "Alpine Textiles" "Basel")
  ∧ 2 < 1000
  ∧ Str.truthy (normalize_query "basel ALPINE") = true
  ∧ (∀ t, t ∈ query_tokens "basel ALPINE" →
          t ∈ indexed_tokens (Sample.row "Alpine Textiles" "Basel"))
  ∧ ∃ (idx : Index) out,
      buildIndex Sample.records = Ok idx
      ∧ queryIndex "basel ALPINE" Sample.records idx = Ok out
      ∧ Some (Sample.row "Alpine Textiles" "Basel") ∈ out.
Proof.
  assert (2 < 1000) as Hlt by lia.
  assert (∀ t, t ∈ query_tokens "basel ALPINE" →
               t ∈ indexed_tokens (Sample.row "Alpine Textiles" "Basel"))
    as Hall.
  { intros t. change (query_tokens "basel ALPINE") with ["basel"; "alpine"].
    change (indexed_tokens (Sample.row "Alpine Textiles" "Basel"))
      with ["alpine"; "textiles"; "basel"].
    rewrite !elem_of_cons, !elem_of_nil. tauto. }
  split; [reflexivity|]. split; [exact Hlt|]. split; [reflexivity|].
  split; [exact Hall|].
  apply (row_found_by_its_tokens Sample.records 2
           (Sample.row "Alpine Textiles" "Basel") "basel ALPINE");
    [reflexivity | exact Hlt | reflexivity | exact Hall].
Defined.



(** X8.  Soundness: on the index built from the collection, every entry a
    non-blank query returns is a row of the collection that holds every
    token of the query in its name, city or type. *)
Theorem returned_rows_hold_every_token rows query :
  Str.truthy (normalize_query query) = true →
  ∃ (idx : Index) out,
    buildIndex rows = Ok idx
    ∧ queryIndex query rows idx = Ok out
    ∧ ∀ x, x ∈ out →
        ∃ i r, x = Some r ∧ rows !! i = Some r
               ∧ ∀ t, t ∈ query_tokens query → t ∈ indexed_tokens r.
Proof.
  intros Hq. destruct (buildIndex_is_index rows) as (idx & Hbuild & Hidx).
  eexists idx, _. split; [done|].
  split; [by apply queryIndex_matching|].
  apply (EngineFacts.queryIndex_sound rows idx query _ Hidx Hq).
  by apply queryIndex_matching.
Qed.

Lemma returned_rows_hold_every_token_witness :
  Str.truthy (normalize_query "alpine") = true
  ∧ ∃ (idx : Index) out,
      buildIndex Sample.records = Ok idx
      ∧ queryIndex "alpine" Sample.records idx = Ok out
      ∧ ∀ x, x ∈ out →
          ∃ i r, x = Some r ∧ Sample.records !! i = Some r
                 ∧ ∀ t, t ∈ query_tokens "alpine" → t ∈ indexed_tokens r.
Proof.
  split; [reflexivity|].
  apply (returned_rows_hold_every_token Sample.records "alpine").
  reflexivity.
Defined.

(** X9.  Rows added at the end of the collection leave what a query
    returned in place: the entries returned on the index of [rows] are the
    first entries returned on the index of [rows ++ more]. *)
Theorem appended_rows_keep_results rows more query :
  ∃ (idx idx' : Index) out out',
    buildIndex rows = Ok idx
    ∧ buildIndex (rows ++ more) = Ok idx'
    ∧ queryIndex query rows idx = Ok out
    ∧ queryIndex query (rows ++ more) idx' = Ok out'
    ∧ out `prefix_of` out'.
Proof.
  destruct (buildIndex_is_index rows) as (idx & Hbuild & Hidx).
  destruct (buildIndex_is_index (rows ++ more)) as (idx' & Hbuild' & Hidx').
  destruct (Str.truthy (normalize_query query)) eqn:Hq.
  - eexists idx, idx', _, _. split; [done|]. split; [done|].
    split; [by apply queryIndex_matching|].
    split; [by apply queryIndex_matching|].
    set (toks := query_tokens query).
    assert (matching idx' toks (length (rows ++ more))
            = matching idx toks (length rows)
              ++ filter (λ i, in_every_set idx' toks i = true)
                   (seq (length rows) (length more))) as ->.
    { unfold matching. rewrite length_app, seq_app, filter_app. f_equal.
      apply EngineFacts.filter_ext_in. intros i Hi%elem_of_seq.
      destruct (lookup_lt_is_Some_2 rows i) as [r Hr]; [lia|].
      rewrite (EngineFacts.in_every_set_row rows idx toks i r Hidx Hr).
      apply (EngineFacts.in_every_set_row (rows ++ more) idx' toks i r Hidx').
      by apply lookup_app_l_Some. }
    rewrite take_app, fmap_app.
    assert ((λ i, (rows ++ more) !! i) <$> take 1000 (matching idx toks (length rows))
            = (λ i, rows !! i) <$> take 1000 (matching idx toks (length rows)))
      as ->.
    { apply Forall_fmap_ext, Forall_forall. intros i Hi.
      apply subseteq_take, MatchFacts.elem_of_matching in Hi as [Hi _].
      by apply lookup_app_l. }
    by eexists.
  - exists idx, idx', (Some <$> rows), (Some <$> (rows ++ more)).
    split; [done|]. split; [done|].
    split; [unfold queryIndex; fold (normalize_query query); by rewrite Hq|].
    split; [unfold queryIndex; fold (normalize_query query); by rewrite Hq|].
    rewrite fmap_app. by eexists.
Qed.

Module ConcatFacts.




End ConcatFacts.



(** X11.  A query of white space alone, or empty, returns the rows as they
    are, all of them and in their order, whatever the index holds; the cap
    of a thousand does not apply. *)
Theorem blank_query_returns_all rows (idx : Index) query :
  Str.forallb Char.is_space query = true →
  queryIndex query rows idx = Ok (Some <$> rows).
Proof.
  intros Hq. unfold queryIndex. by rewrite TrimFacts.trim_blank.
Qed.

Lemma blank_query_returns_all_witness :
  Str.forallb Char.is_space "   " = true
  ∧ queryIndex "   " cap_rows ∅ = Ok (Some <$> cap_rows).
Proof.
  split; [reflexivity|].
  apply (blank_query_returns_all cap_rows ∅ "   "). reflexivity.
Defined.

(** * Loading and normalising *)

Example split_lines_mixed :
  split_lines ("a" +:+ CRLF +:+ "b" +:+ LF +:+ LF +:+ "c" +:+ String "013" "d" +:+ LF)
  = ["a"; "b"; ""; "c" +:+ String "013" "d"; ""].
Proof. reflexivity. Qed.

Example load_jsonl_toy :
  load_rows N.of_nat toy_parse true ("{}" +:+ LF +:+ "x y" +:+ CRLF)
  = Ok [ {[ "id" := Num 1%N; "name" := Str "Company 1"; "city" := Str "";
            "type" := Str ""; "address" := Str "" ]};
         {[ "id" := Str "line-1"; "name" := Str "x y"; "city" := Str "";
            "type" := Str ""; "address" := Str "" ]} ].
Proof. vm_compute. reflexivity. Qed.

Example load_jsonl_null_line :
  load_rows N.of_nat toy_parse true ("{}" +:+ LF +:+ "null") = TypeError.
Proof. vm_compute. reflexivity. Qed.

Module LinesFacts.

(** Induction on a string, two characters at a time, as [split_lines]
    reads it. *)
Lemma string_ind2 (P : string → Prop) :
  P EmptyString →
  (∀ c, P (String c EmptyString)) →
  (∀ c c' s, P s → P (String c' s) → P (String c (String c' s))) →
  ∀ s, P s.
Proof.
  intros H0 H1 H2 s.
  assert (P s ∧ ∀ c, P (String c s)) as [Hs _]; [|exact Hs].
  induction s as [|c' s [IH1 IH2]]; [by split|].
  split; [apply IH2|]. intros c. by apply H2.
Qed.

Lemma split_lines_lf c rest :
  is_lf c = true → split_lines (String c rest) = EmptyString :: split_lines rest.
Proof. intros Hc. simpl. by rewrite Hc. Qed.

Lemma split_lines_crlf c c' rest :
  is_cr c = true → is_lf c' = true →
  split_lines (String c (String c' rest)) = EmptyString :: split_lines rest.
Proof.
  intros Hc Hc'. apply bool_decide_eq_true in Hc as ->.
  cbn [split_lines]. by rewrite Hc'.
Qed.

Lemma split_lines_char c rest :
  is_lf c = false →
  (is_cr c = false ∨ ∀ c' rest', rest = String c' rest' → is_lf c' = false) →
  split_lines (String c rest) = push_char c (split_lines rest).
Proof.
  intros Hc Hnext. cbn [split_lines]. rewrite Hc.
  destruct rest as [|c' rest']; [done|].
  destruct Hnext as [->|Hnext]; [done|].
  by rewrite (Hnext c' rest' eq_refl), andb_false_r.
Qed.

Lemma split_lines_cases c c' s :
  split_lines (String c (String c' s))
  = if is_lf c then EmptyString :: split_lines (String c' s)
    else if is_cr c && is_lf c' then EmptyString :: split_lines s
    else push_char c (split_lines (String c' s)).
Proof. reflexivity. Qed.

Lemma split_lines_nonempty text : split_lines text ≠ [].
Proof.
  induction text as [|c|c c' s IHs IHc] using string_ind2; [done| |].
  - simpl. by destruct (is_lf c).
  - rewrite split_lines_cases. destruct (is_lf c); [done|].
    destruct (is_cr c && is_lf c'); [done|].
    by destruct (split_lines (String c' s)).
Qed.

Lemma push_char_no_lf c pieces :
  is_lf c = false →
  Forall (λ ln, Str.forallb (λ c, negb (is_lf c)) ln = true) pieces →
  Forall (λ ln, Str.forallb (λ c, negb (is_lf c)) ln = true) (push_char c pieces).
Proof.
  intros Hc [|ln rest Hln Hall]; simpl.
  - repeat constructor. simpl. by rewrite Hc.
  - constructor; [|done]. simpl. by rewrite Hc, Hln.
Qed.

(** No piece holds a LINE FEED. *)
Lemma split_lines_no_lf text :
  Forall (λ ln, Str.forallb (λ c, negb (is_lf c)) ln = true) (split_lines text).
Proof.
  induction text as [|c|c c' s IHs IHc] using string_ind2.
  - by repeat constructor.
  - simpl. destruct (is_lf c) eqn:Hc; [by repeat constructor|].
    repeat constructor. simpl. by rewrite Hc.
  - rewrite split_lines_cases. destruct (is_lf c) eqn:Hc; [by constructor|].
    destruct (is_cr c && is_lf c'); [by constructor|].
    by apply push_char_no_lf.
Qed.

(** A word without LINE FEED in front of [s] joins the first piece of [s],
    unless its CARRIAGE RETURN meets a LINE FEED that [s] starts with. *)
Lemma split_lines_word w s :
  Str.forallb (λ c, negb (is_lf c)) w = true →
  (ends_cr w = false ∨ ∀ c rest, s = String c rest → is_lf c = false) →
  split_lines (w +:+ s)
  = match split_lines s with
    | piece :: pieces => (w +:+ piece) :: pieces
    | [] => [w]
    end.
Proof.
  pose proof (split_lines_nonempty s) as Hne.
  induction w as [|c w IH]; intros Hw Hend.
  { rewrite StrFacts.app_empty_l. by destruct (split_lines s). }
  simpl in Hw. apply andb_true_iff in Hw as [Hc%negb_true_iff Hw].
  rewrite StrFacts.app_cons, split_lines_char; [|done|].
  - rewrite IH; [by destruct (split_lines s)|done|].
    destruct Hend as [Hend|Hend]; [|by right]. left.
    by destruct w.
  - destruct w as [|c' w].
    + destruct Hend as [Hend|Hend]; [by left|]. right.
      intros c' rest'. rewrite StrFacts.app_empty_l. apply Hend.
    + right. intros c'' rest' [= <- _]. simpl in Hw.
      by apply andb_true_iff in Hw as [Hc'%negb_true_iff _].
Qed.

Lemma split_lines_LF rest :
  split_lines (LF +:+ rest) = EmptyString :: split_lines rest.
Proof. reflexivity. Qed.

Lemma split_lines_CRLF rest :
  split_lines (CRLF +:+ rest) = EmptyString :: split_lines rest.
Proof. reflexivity. Qed.

(** Lines joined by a line break are split into these lines again, empty
    ones too, as long as no line ends with a CARRIAGE RETURN that would
    join a LINE FEED after it. *)
Lemma split_lines_join sep ls :
  (∀ rest, split_lines (sep +:+ rest) = EmptyString :: split_lines rest) →
  Forall (λ ln,
    Str.forallb (λ c, negb (is_lf c)) ln = true
    ∧ (ends_cr ln = false
       ∨ ∀ rest c r, sep +:+ rest = String c r → is_lf c = false)) ls →
  ls ≠ [] → split_lines (Str.join sep ls) = ls.
Proof.
  intros Hsep. induction 1 as [|ln ls [Hln Hend] _ IH]; [done|]. intros _.
  destruct ls as [|ln' ls].
  - simpl. rewrite <-(StrFacts.app_empty_r ln) at 1.
    rewrite split_lines_word; [|done|by right]. simpl.
    by rewrite StrFacts.app_empty_r.
  - change (Str.join sep (ln :: ln' :: ls))
      with (ln +:+ sep +:+ Str.join sep (ln' :: ls)).
    rewrite split_lines_word, Hsep, IH, StrFacts.app_empty_r; [done..|].
    destruct Hend as [Hend|Hend]; [by left|]. right. apply Hend.
Qed.

Lemma app_assoc_str s t u : (s +:+ t) +:+ u = s +:+ t +:+ u.
Proof.
  induction s as [|c s IH]; [done|]. by rewrite !StrFacts.app_cons, IH.
Qed.

Lemma join_snoc sep ls :
  ls ≠ [] → Str.join sep (ls ++ [EmptyString]) = Str.join sep ls +:+ sep.
Proof.
  induction ls as [|ln ls IH]; [done|]. intros _.
  destruct ls as [|ln' ls].
  - simpl. by rewrite StrFacts.app_empty_r.
  - change (Str.join sep ((ln :: ln' :: ls) ++ [EmptyString]))
      with (ln +:+ sep +:+ Str.join sep ((ln' :: ls) ++ [EmptyString])).
    rewrite IH by done.
    change (Str.join sep (ln :: ln' :: ls))
      with (ln +:+ sep +:+ Str.join sep (ln' :: ls)).
    by rewrite !app_assoc_str.
Qed.

Lemma filter_lines ls :
  Forall is_line ls → filter (λ ln, Str.truthy ln = true) ls = ls.
Proof.
  intros Hls. apply PlainFacts.filter_Forall.
  eapply Forall_impl; [exact Hls|]. by intros ln [? _].
Qed.

End LinesFacts.

(** X12.  The lines that become records: none is empty and none holds a
    LINE FEED. *)
Theorem lines_are_lines text : Forall is_line (nonempty_lines text).
Proof.
  unfold nonempty_lines. apply Forall_forall. intros ln.
  rewrite list_elem_of_filter. intros [Hln Hin]. split; [done|].
  pose proof (LinesFacts.split_lines_no_lf text) as Hall.
  rewrite Forall_forall in Hall. by apply Hall.
Qed.

(** X13.  Line breaks of either kind, and one at the end, do not matter:
    lines joined by CARRIAGE RETURN and LINE FEED are read back as they
    were; so are lines joined by LINE FEED alone, with or without a LINE
    FEED after the last one, when no line ends with a CARRIAGE RETURN. *)
Theorem lines_round_trip ls :
  Forall is_line ls →
  nonempty_lines (Str.join CRLF ls) = ls
  ∧ (Forall (λ ln, ends_cr ln = false) ls →
     nonempty_lines (Str.join LF ls) = ls
     ∧ nonempty_lines (Str.join LF ls +:+ LF) = ls).
Proof.
  intros Hls. destruct (decide (ls = [])) as [->|Hne]; [by split|].
  unfold nonempty_lines. split.
  - rewrite LinesFacts.split_lines_join;
      [by apply LinesFacts.filter_lines | apply LinesFacts.split_lines_CRLF | | done].
    eapply Forall_impl; [exact Hls|]. intros ln [_ Hln]. split; [done|].
    right. by intros rest c r [= <- _].
  - intros Hcr.
    assert (Forall (λ ln,
      Str.forallb (λ c, negb (is_lf c)) ln = true
      ∧ (ends_cr ln = false
         ∨ ∀ rest c r, LF +:+ rest = String c r → is_lf c = false))
      (ls ++ [EmptyString])) as Hall.
    { apply Forall_app. split; [|by repeat constructor; left].
      rewrite Forall_forall in *. intros ln Hin.
      destruct (Hls ln Hin) as [_ Hln]. split; [done|]. left. by apply Hcr. }
    split.
    + rewrite LinesFacts.split_lines_join;
        [by apply LinesFacts.filter_lines | apply LinesFacts.split_lines_LF | | done].
      by apply Forall_app in Hall as [Hall _].
    + rewrite <-LinesFacts.join_snoc by done.
      rewrite LinesFacts.split_lines_join;
        [| apply LinesFacts.split_lines_LF | done | by destruct ls].
      rewrite filter_app, LinesFacts.filter_lines by done.
      by rewrite filter_cons_False, app_nil_r.
Qed.

Lemma lines_round_trip_witness :
  Forall is_line ["Alpine Watch AG"; "Geneva Trading SA"]
  ∧ nonempty_lines (Str.join CRLF ["Alpine Watch AG"; "Geneva Trading SA"])
    = ["Alpine Watch AG"; "Geneva Trading SA"]
  ∧ (Forall (λ ln, ends_cr ln = false)
       ["Alpine Watch AG"; "Geneva Trading SA"] →
     nonempty_lines (Str.join LF ["Alpine Watch AG"; "Geneva Trading SA"])
     = ["Alpine Watch AG"; "Geneva Trading SA"]
     ∧ nonempty_lines
         (Str.join LF ["Alpine Watch AG"; "Geneva Trading SA"] +:+ LF)
       = ["Alpine Watch AG"; "Geneva Trading SA"]).
Proof.
  assert (Forall is_line ["Alpine Watch AG"; "Geneva Trading SA"]) as Hls.
  { constructor; [split; reflexivity|].
    constructor; [split; reflexivity|]. constructor. }
  split; [exact Hls|].
  apply (lines_round_trip ["Alpine Watch AG"; "Geneva Trading SA"] Hls).
Defined.

Module NormalFacts.

Section Facts.

Context {number : Type} (num_of_nat : nat → number).

Lemma map_from_length {A B : Type} (f : A → nat → result B) arr : ∀ k out,
  map_from f k arr = Ok out → length out = length arr.
Proof.
  induction arr as [|x arr IH]; intros k out; cbn [map_from].
  { by intros [= <-]. }
  destruct (f x k) as [y|]; [|done]. cbn [mbind result_bind].
  destruct (map_from f (S k) arr) as [ys|] eqn:Hys; [|done].
  cbn [mbind result_bind]. intros [= <-]. simpl. f_equal. by eapply IH.
Qed.

(** [map] throws exactly when its callback throws at some element. *)
Lemma map_from_TypeError {A B : Type} (f : A → nat → result B) arr : ∀ k,
  map_from f k arr = TypeError ↔
  ∃ i x, arr !! i = Some x ∧ f x (k + i) = TypeError.
Proof.
  induction arr as [|x arr IH]; intros k; cbn [map_from].
  { split; [done|]. by intros (i & y & ? & _). }
  destruct (f x k) as [y|] eqn:Hy; cbn [mbind result_bind].
  - destruct (map_from f (S k) arr) as [ys|] eqn:Hys; cbn [mbind result_bind].
    + split; [done|]. intros ([|i] & z & Hz & Hf).
      * simpl in Hz. injection Hz as <-. rewrite Nat.add_0_r in Hf. congruence.
      * assert (map_from f (S k) arr = TypeError) as Hbad; [|congruence].
        apply IH. exists i, z. split; [done|].
        by replace (S k + i) with (k + S i) by lia.
    + split; [|done]. intros _. apply IH in Hys as (i & z & Hz & Hf).
      exists (S i), z. split; [done|].
      by replace (k + S i) with (S k + i) by lia.
  - split; [|done]. intros _. exists 0, x. split; [done|].
    by rewrite Nat.add_0_r.
Qed.

Lemma map_from_imap {A B C : Type} (f : B → nat → result C)
    (h : nat → A → B) (g : nat → A → C) l : ∀ k,
  (∀ i y, l !! i = Some y → f (h (k + i) y) (k + i) = Ok (g (k + i) y)) →
  map_from f k (imap (λ i, h (k + i)) l) = Ok (imap (λ i, g (k + i)) l).
Proof.
  induction l as [|y l IH]; intros k Hf; [done|].
  cbn [imap map_from]. rewrite !Nat.add_0_r.
  specialize (Hf 0 y eq_refl) as Hy. rewrite Nat.add_0_r in Hy. rewrite Hy.
  cbn [mbind result_bind].
  rewrite (imap_ext _ (λ i, h (S k + i)) l), (imap_ext _ (λ i, g (S k + i)) l);
    [| intros i z _; simpl; f_equal; lia..].
  rewrite IH; [done|]. intros i z Hz.
  specialize (Hf (S i) z Hz).
  by replace (k + S i) with (S k + i) in Hf by lia.
Qed.

Lemma get_prop_Ok (d : value number) k :
  d ≠ Null → get_prop d k = Ok (prop_of d k).
Proof. by destruct d. Qed.

(** A row is normalised unless it is [null]. *)
Lemma normalize_row_Ok (d : value number) i :
  d ≠ Null →
  normalize_row num_of_nat d i
  = Ok (spread_props d ∪ computed_fields num_of_nat d i).
Proof.
  intros Hd. unfold normalize_row.
  by rewrite !get_prop_Ok by done.
Qed.

Lemma normalize_row_TypeError (d : value number) i :
  normalize_row num_of_nat d i = TypeError ↔ d = Null.
Proof.
  split; [|by intros ->].
  destruct d; [done|rewrite normalize_row_Ok by done; done..].
Qed.

End Facts.

End NormalFacts.

Module FieldFacts.

Lemma pretty_N_go_digits x : ∀ s,
  Str.forallb is_digit s = true → Str.forallb is_digit (pretty_N_go x s) = true.
Proof.
  induction (N.lt_wf_0 x) as [x _ IH]; intros s Hs.
  destruct (decide (x = 0)%N) as [->|Hx]; [by rewrite pretty_N_go_0|].
  rewrite pretty_N_go_step by lia. apply IH.
  { apply N.div_lt; lia. }
  simpl. rewrite Hs, andb_true_r.
  unfold pretty_N_char. by repeat case_match.
Qed.

(** An index, printed, is made of digits. *)
Lemma pretty_digits (n : nat) : Str.forallb is_digit (pretty n) = true.
Proof.
  unfold pretty, pretty_nat, pretty, pretty_N.
  destruct (decide (N.of_nat n = 0%N)); [done|]. by apply pretty_N_go_digits.
Qed.

Lemma normal_field_no_digits k :
  k ∈ normal_fields → Str.forallb is_digit k = false.
Proof.
  unfold normal_fields. rewrite !elem_of_cons, elem_of_nil.
  intros [->|[->|[->|[->|[->|[]]]]]]; reflexivity.
Qed.

Section Facts.

Context {number : Type} (num_of_nat : nat → number).

Lemma nullish_not_null (a : option (value number)) b :
  b ≠ Null → nullish a b ≠ Null.
Proof. by destruct a as [[]|]. Qed.

(** The keys that spreading an array or a string gives are indices. *)
Lemma spread_props_key (d : value number) k v :
  spread_props d !! k = Some v →
  (∃ props, d = Obj props ∧ props !! k = Some v)
  ∨ Str.forallb is_digit k = true.
Proof.
  destruct d as [| | | s|items|props]; simpl; try by rewrite lookup_empty.
  - intros Hk%elem_of_list_to_map_2. right.
    apply elem_of_lookup_imap in Hk as (j & c & [= -> _] & _).
    apply pretty_digits.
  - intros Hk%elem_of_list_to_map_2. right.
    apply elem_of_lookup_imap in Hk as (j & c & [= -> _] & _).
    apply pretty_digits.
  - intros Hk. left. by exists props.
Qed.

Lemma computed_fields_normal (d : value number) i k :
  k ∈ normal_fields →
  ∃ v, computed_fields num_of_nat d i !! k = Some v ∧ v ≠ Null.
Proof.
  unfold normal_fields. rewrite !elem_of_cons, elem_of_nil.
  intros [->|[->|[->|[->|[->|[]]]]]]; eexists;
    (split; [unfold computed_fields; by simplify_map_eq|]);
    by apply nullish_not_null.
Qed.

Lemma computed_fields_other (d : value number) i k :
  k ∉ normal_fields → computed_fields num_of_nat d i !! k = None.
Proof.
  unfold normal_fields. rewrite !not_elem_of_cons. intros (?&?&?&?&?&_).
  unfold computed_fields. by simplify_map_eq.
Qed.

End Facts.

End FieldFacts.

Section Normalising.

Context {number : Type} (num_of_nat : nat → number).
Context (JSON_parse : string → option (value number)).

(** X14.  Normalising keeps every property of the source row as it is,
    also over the field it has just computed: a name that is [null] in the
    source stays [null], whatever [companyName] and [title] hold.  Beside
    the five fields it adds nothing. *)
Theorem normalize_row_keeps_properties (d : value number) i o :
  normalize_row num_of_nat d i = Ok o →
  (∀ k v, spread_props d !! k = Some v → o !! k = Some v)
  ∧ (∀ k, k ∉ normal_fields → o !! k = spread_props d !! k).
Proof.
  intros Hrun. assert (d ≠ Null) as Hd by (by intros ->).
  rewrite (NormalFacts.normalize_row_Ok num_of_nat d i Hd) in Hrun.
  injection Hrun as <-. split.
  - intros k v Hk. by apply lookup_union_Some_l.
  - intros k Hk. rewrite lookup_union_l; [done|].
    by apply FieldFacts.computed_fields_other.
Qed.

(** X15.  A normalised row has the five fields id, name, city, type and
    address, and one of them is [null] only where the source row is an
    object that holds [null] under that very name. *)
Theorem normalize_row_fields_present (d : value number) i o k :
  normalize_row num_of_nat d i = Ok o → k ∈ normal_fields →
  ∃ v, o !! k = Some v
       ∧ (v = Null → ∃ props, d = Obj props ∧ props !! k = Some Null).
Proof.
  intros Hrun Hk. assert (d ≠ Null) as Hd by (by intros ->).
  rewrite (NormalFacts.normalize_row_Ok num_of_nat d i Hd) in Hrun.
  injection Hrun as <-.
  destruct (spread_props d !! k) as [v|] eqn:Hspread.
  - exists v. split; [by apply lookup_union_Some_l|]. intros ->.
    destruct (FieldFacts.spread_props_key d k Null Hspread) as [?|Hdigits];
      [done|].
    by rewrite (FieldFacts.normal_field_no_digits k Hk) in Hdigits.
  - destruct (FieldFacts.computed_fields_normal num_of_nat d i k Hk)
      as (v & Hv & Hnull).
    exists v. split; [by rewrite lookup_union_r|done].
Qed.

(** X16.  Normalising throws exactly when the data is no array or holds a
    [null]; otherwise it gives one row for each element. *)
Theorem normalize_throws_iff (data : value number) :
  (normalize num_of_nat data = TypeError ↔
   (∀ items, data ≠ Arr items) ∨ (∃ items, data = Arr items ∧ Null ∈ items))
  ∧ (∀ out, normalize num_of_nat data = Ok out →
            ∃ items, data = Arr items ∧ length out = length items).
Proof.
  split.
  - destruct data as [| | | |items|]; simpl;
      try (split; [intros _; by left | done]).
    rewrite NormalFacts.map_from_TypeError. split.
    + intros (i & d & Hd & Hbad). right. exists items. split; [done|].
      apply NormalFacts.normalize_row_TypeError in Hbad as ->.
      by eapply list_elem_of_lookup_2.
    + intros [Hno|(items' & [= <-] & [i Hi]%list_elem_of_lookup)].
      { by destruct (Hno items). }
      exists i, Null. by split.
  - intros out. destruct data as [| | | |items|]; simpl; try done.
    intros Hout%NormalFacts.map_from_length. by exists items.
Qed.

(** X17.  In the JSON Lines mode a line that does not parse costs nothing
    but its own fields, while a line that parses to [null] makes the whole
    load throw: loading throws exactly when some non-empty line is [null],
    and gives one row for each non-empty line otherwise. *)
Theorem jsonl_load_throws_iff text :
  (load_rows num_of_nat JSON_parse true text = TypeError ↔
   ∃ ln, ln ∈ nonempty_lines text ∧ JSON_parse ln = Some Null)
  ∧ (∀ out, load_rows num_of_nat JSON_parse true text = Ok out →
            length out = length (nonempty_lines text)).
Proof.
  unfold load_rows, loadCompaniesFromURL. simpl. split.
  - rewrite NormalFacts.map_from_TypeError. split.
    + intros (i & d & Hd & Hbad).
      apply NormalFacts.normalize_row_TypeError in Hbad as ->.
      apply list_lookup_imap_Some in Hd as (ln & Hln & Hparse).
      exists ln. split; [by eapply list_elem_of_lookup_2|].
      unfold parse_line in Hparse. by destruct (JSON_parse ln) as [v|]; subst.
    + intros (ln & [i Hi]%list_elem_of_lookup & Hparse).
      exists i, Null. split; [|done].
      rewrite list_lookup_imap, Hi. simpl. unfold parse_line. by rewrite Hparse.
  - intros out Hout%NormalFacts.map_from_length.
    by rewrite length_imap in Hout.
Qed.

(** X18.  A text that is no JSON is read as a list of names: each
    non-empty line becomes, in its place, the row with the line as its
    name, its place counted from one as its id, and the empty string as
    city, type and address.  This never throws. *)
Theorem name_list_load text :
  JSON_parse text = None →
  load_rows num_of_nat JSON_parse false text
  = Ok (imap (named_row num_of_nat) (nonempty_lines text)).
Proof.
  intros Hparse. unfold load_rows, loadCompaniesFromURL. rewrite Hparse.
  simpl. apply (NormalFacts.map_from_imap _ (name_only num_of_nat)
                  (named_row num_of_nat) _ 0).
  intros i name _. simpl.
  rewrite NormalFacts.normalize_row_Ok by done.
  reflexivity.
Qed.

End Normalising.

Lemma normalize_row_keeps_properties_witness :
  normalize_row N.of_nat null_name_row 0 = Ok null_name_normal
  ∧ (∀ k v, spread_props null_name_row !! k = Some v →
            null_name_normal !! k = Some v)
  ∧ (∀ k, k ∉ normal_fields →
          null_name_normal !! k = spread_props null_name_row !! k).
Proof.
  assert (normalize_row N.of_nat null_name_row 0 = Ok null_name_normal) as Hrun.
  { vm_compute. reflexivity. }
  split; [exact Hrun|].
  apply (normalize_row_keeps_properties N.of_nat null_name_row 0
           null_name_normal Hrun).
Defined.

Lemma normalize_row_fields_present_witness :
  normalize_row N.of_nat null_name_row 0 = Ok null_name_normal
  ∧ "name" ∈ normal_fields
  ∧ ∃ v, null_name_normal !! "name" = Some v
         ∧ (v = Null →
            ∃ props, null_name_row = Obj props ∧ props !! "name" = Some Null).
Proof.
  assert (normalize_row N.of_nat null_name_row 0 = Ok null_name_normal) as Hrun.
  { vm_compute. reflexivity. }
  assert ("name" ∈ normal_fields) as Hk.
  { apply (bool_decide_unpack _). vm_compute. exact I. }
  split; [exact Hrun|]. split; [exact Hk|].
  apply (normalize_row_fields_present N.of_nat null_name_row 0
           null_name_normal "name" Hrun Hk).
Defined.

Lemma name_list_load_witness :
  toy_parse ("Alpine Watch AG" +:+ LF +:+ "Geneva Trading SA") = None
  ∧ load_rows N.of_nat toy_parse false
      ("Alpine Watch AG" +:+ LF +:+ "Geneva Trading SA")
    = Ok (imap (named_row N.of_nat)
            (nonempty_lines ("Alpine Watch AG" +:+ LF +:+ "Geneva Trading SA"))).
Proof.
  split; [reflexivity|].
  apply (name_list_load N.of_nat toy_parse
           ("Alpine Watch AG" +:+ LF +:+ "Geneva Trading SA")).
  reflexivity.
Defined.

Section BadLines.

Context {number : Type} (num_of_nat : nat → number).
Context (JSON_parse : string → option (value number)).

Lemma map_from_lookup {A B : Type} (f : A → nat → result B) arr : ∀ k out i x,
  map_from f k arr = Ok out → arr !! i = Some x →
  ∃ y, out !! i = Some y ∧ f x (k + i) = Ok y.
Proof.
  induction arr as [|z arr IH]; intros k out i x; cbn [map_from]; [done|].
  destruct (f z k) as [y|] eqn:Hy; [|done]. cbn [mbind result_bind].
  destruct (map_from f (S k) arr) as [ys|] eqn:Hys; [|done].
  cbn [mbind result_bind]. intros [= <-] Hx. destruct i as [|i].
  - simpl in Hx. injection Hx as <-. exists y. by rewrite Nat.add_0_r.
  - destruct (IH (S k) ys i x Hys Hx) as (y' & Hy' & Hf).
    exists y'. split; [done|]. by replace (k + S i) with (S k + i) by lia.
Qed.

(** X19.  In the JSON Lines mode a line that does not parse keeps its
    place: where the load succeeds, the row at the place of such a line,
    counted from zero among the non-empty lines, has the whole line as its
    name, [line-] and that count as its id, and the empty string as city,
    type and address. *)
Theorem jsonl_unparsed_line_row text out i ln :
  load_rows num_of_nat JSON_parse true text = Ok out →
  nonempty_lines text !! i = Some ln →
  JSON_parse ln = None →
  out !! i = Some {[ "id" := Str ("line-" +:+ pretty i); "name" := Str ln;
                     "city" := Str ""; "type" := Str "";
                     "address" := Str "" ]}.
Proof.
  unfold load_rows, loadCompaniesFromURL. simpl. intros Hout Hln Hparse.
  destruct (map_from_lookup _ _ 0 out i (parse_line JSON_parse i ln) Hout)
    as (y & -> & Hy).
  { by rewrite list_lookup_imap, Hln. }
  f_equal. unfold parse_line in Hy. rewrite Hparse in Hy.
  rewrite NormalFacts.normalize_row_Ok in Hy by done.
  injection Hy as <-. reflexivity.
Qed.

End BadLines.

Lemma jsonl_unparsed_line_row_witness :
  load_rows N.of_nat toy_parse true toy_text = Ok toy_rows
  ∧ nonempty_lines toy_text !! 1 = Some "x y"
  ∧ toy_parse "x y" = None
  ∧ toy_rows !! 1
    = Some ({[ "id" := Str ("line-" +:+ pretty 1); "name" := Str "x y";
               "city" := Str ""; "type" := Str ""; "address" := Str "" ]}
            : gmap string (value N)).
Proof.
  assert (load_rows N.of_nat toy_parse true toy_text = Ok toy_rows) as Hrun.
  { vm_compute. reflexivity. }
  split; [exact Hrun|]. split; [reflexivity|]. split; [reflexivity|].
  apply (jsonl_unparsed_line_row N.of_nat toy_parse toy_text toy_rows 1 "x y"
           Hrun); reflexivity.
Defined.
